(** * hwgraph: trace-compatibility validation and graph-dispatch orchestration

    A shallow embedding of [graph/hwgraph.py]: the compatibility validator
    ([compare_traces]), the environment stage ([graph_environment] with its
    nested [valid_traces] gate), the per-bench dispatchers ([graph_fans],
    [graph_cpu], [graph_thermal]), the job aggregation of [plot_graphs] and
    the orchestrator [render_traces].

    The Python code prints, mutates the shared [args] namespace, calls the
    external renderers and may leave the process through [fatal].  All of
    that is kept: the functions below live in a small state-and-abort monad
    whose state holds the [args] object and the ordered log of everything the
    program did to the outside world. *)

From Stdlib Require Import Ascii.
From stdpp Require Import base strings list gmap sorting pretty.

(** * Data model *)

(** The two secondary axes of [graph.graph]; [None] in the source is the
    absence of a secondary axis. *)
Inductive axis := THERMAL | POWER.

(** Modelled from the spec: the bench handle returned by [Trace.bench] (class
    [Bench] of [graph.trace], not part of the sources at hand).  The core
    only asks for the job name, the components of a given kind and the mean
    of a monitoring metric; a missing metric is a [KeyError] in the source
    and a failed lookup here.  The mean itself is never looked at by the
    orchestrator. *)
Record Bench := {
  job_name : string;
  get_components : string → list string;
  metric_mean : gmap string Z;
}.

(** Modelled from the spec: the trace handle (class [Trace] of [graph.trace],
    not part of the sources at hand).  [get_original_config] lists the
    entries that iterating over the original configuration yields; the
    serials are [None] when the trace does not report them; [benches] is the
    dictionary behind [bench_list()] and [bench(name)]; [first_bench] is the
    bench on which the chassis and enclosure metrics are looked up. *)
Record Trace := {
  filename : string;
  get_name : string;
  power_metric : string;
  get_original_config : list string;
  get_enclosure_serial : option string;
  get_chassis_serial : option string;
  benches : gmap string Bench;
  first_bench : Bench;
}.

Definition get_filename (t : Trace) : string := filename t.

(** [trace.bench_list()]: the bench names, in the dictionary's own order. *)
Definition bench_list (t : Trace) : list string := elements (dom (benches t)).

(** [trace.get_metric_mean(bench, metric)]; [None] stands for [KeyError]. *)
Definition get_metric_mean (t : Trace) (b : Bench) (metric : string) : option Z :=
  metric_mean b !! metric.

(** Python's [sorted] on a list of [str]. *)
Definition sorted (l : list string) : list string := merge_sort String.le l.

(** The [argparse.Namespace] of the [graph] sub-command, restricted to the
    attributes the orchestration reads or writes.  [no_env] is declared with
    [store_false]: it is [true] unless the user passed [--no-env]. *)
Record Args := {
  traces : list Trace;
  no_env : bool;
  same_enclosure : bool;
  outdir : string;
}.

Definition set_same_enclosure (b : bool) (a : Args) : Args :=
  {| traces := traces a; no_env := no_env a; same_enclosure := b; outdir := outdir a |}.

(** * Effects *)

(** Everything the program does to the outside world, in order. *)
Inductive event :=
  | InitMatplotlib
  | Mkdir (path : string)
  | Print (line : string)
  | GenericGraph (bench : Bench) (component_type item_title : string) (second_axis : option axis)
  | YerrGraph (bench : Bench) (component_type component : string)
  | GraphEnclosure (bench_name : string)
  | ScalingGraph (job : string) (traces_name : list string)
  | IndividualGraph (job : string) (traces_name : list string).

(** Python exceptions the orchestration itself can raise. *)
Inductive exn :=
  | IndexError
  | KeyError (key : string).

Inductive outcome (A : Type) :=
  | Done (a : A)
  | Fatal (reason : string)
  | Raised (e : exn).
Arguments Done {A} a.
Arguments Fatal {A} reason.
Arguments Raised {A} e.

(** The shared [args] object and the log of events so far. *)
Record state := {
  st_args : Args;
  st_log : list event;
}.

Definition M (A : Type) : Type := state → outcome A * state.

Definition ret {A} (a : A) : M A := λ s, (Done a, s).

Definition bind {A B} (m : M A) (k : A → M B) : M B := λ s,
  match m s with
  | (Done a, s') => k a s'
  | (Fatal r, s') => (Fatal r, s')
  | (Raised e, s') => (Raised e, s')
  end.

Notation "x <- m ;; k" := (bind m (λ x, k))
  (at level 100, m at next level, right associativity).
Notation "m ;;; k" := (bind m (λ _, k))
  (at level 100, right associativity).

Definition get_args : M Args := λ s, (Done (st_args s), s).

Definition emit (e : event) : M unit := λ s,
  (Done (), {| st_args := st_args s; st_log := st_log s ++ [e] |}).

Definition print (line : string) : M unit := emit (Print line).

(** Modelled from the spec: [fatal] of [graph.common] reports the reason and
    terminates the process with a non-zero status; nothing runs after it. *)
Definition fatal {A} (reason : string) : M A := λ s, (Fatal reason, s).

Definition raise {A} (e : exn) : M A := λ s, (Raised e, s).

(** [args.same_enclosure = b]: the mutation is visible to every later
    reader of [args]. *)
Definition assign_same_enclosure (b : bool) : M unit := λ s,
  (Done (), {| st_args := set_same_enclosure b (st_args s); st_log := st_log s |}).

(** [for x in l: acc = body(acc, x)]. *)
Fixpoint foreach {A S} (l : list A) (acc : S) (body : S → A → M S) : M S :=
  match l with
  | [] => ret acc
  | x :: l' => acc' <- body acc x ;; foreach l' acc' body
  end.

(** [l[0]]. *)
Definition item0 {A} (l : list A) : M A :=
  match l with
  | [] => raise IndexError
  | x :: _ => ret x
  end.

(** [trace.bench(bench_name)]. *)
Definition bench (t : Trace) (bench_name : string) : M Bench :=
  match benches t !! bench_name with
  | Some b => ret b
  | None => raise (KeyError bench_name)
  end.

(** * Paths *)

(** [pathlib.Path] on a POSIX system.  A path object is represented by the
    string that [str()] gives for it: the root ([/], or [//] for exactly two
    leading slashes), then the components separated by single slashes, empty
    components and [.] components dropped, and [.] for the empty path. *)

(** [s.split("/")]. *)
Fixpoint split_slash (s : string) : list string :=
  match s with
  | EmptyString => [""]
  | String c s' =>
    if bool_decide (c = "/"%char) then "" :: split_slash s'
    else match split_slash s' with
         | part :: parts => String c part :: parts
         | [] => [String c ""]
         end
  end.

(** ["/".join(parts)]. *)
Fixpoint join_slash (parts : list string) : string :=
  match parts with
  | [] => ""
  | part :: parts' =>
    match parts' with
    | [] => part
    | _ => part +:+ "/" +:+ join_slash parts'
    end
  end.

Definition starts_with_slash (s : string) : bool :=
  match s with
  | String c _ => bool_decide (c = "/"%char)
  | EmptyString => false
  end.

Fixpoint ends_with_slash (s : string) : bool :=
  match s with
  | EmptyString => false
  | String c EmptyString => bool_decide (c = "/"%char)
  | String _ s' => ends_with_slash s'
  end.

(** The root that [posixpath.splitroot] finds: one slash, or three and
    more, give [/]; exactly two give [//]. *)
Definition path_root (s : string) : string :=
  match s with
  | String c1 s1 =>
    if bool_decide (c1 = "/"%char) then
      match s1 with
      | String c2 s2 =>
        if bool_decide (c2 = "/"%char) then
          if starts_with_slash s2 then "/" else "//"
        else "/"
      | EmptyString => "/"
      end
    else ""
  | EmptyString => ""
  end.

(** [str(pathlib.Path(s))]. *)
Definition Path (s : string) : string :=
  let root := path_root s in
  let parts := filter (λ part, part ≠ "" ∧ part ≠ ".") (split_slash s) in
  if bool_decide (root = "" ∧ parts = []) then "." else root +:+ join_slash parts.

(** [posixpath.join(a, b)], by which [pathlib] combines segments: an
    absolute [b] replaces [a]. *)
Definition posix_join (a b : string) : string :=
  if starts_with_slash b then b
  else if bool_decide (a = "") || ends_with_slash a then a +:+ b
  else a +:+ "/" +:+ b.

(** * The compatibility validator *)

(** [set(reference).difference(config)], as the source computes it. *)
Definition config_difference (reference config : list string) : gset string :=
  list_to_set reference ∖ list_to_set config.

Definition config_mismatch_message (t : Trace) : string :=
  filename t +:+ " is not having the same configuration file as previous traces".

Definition duplicate_name_message (t : Trace) : string :=
  filename t +:+ " is using '" +:+ get_name t +:+ "' as logical_name while it's already in use".

(** The body of the [for trace in args.traces] loop; [names] is the list of
    logical names seen so far. *)
Definition compare_trace (args : Args) (names : list string) (trace : Trace)
    : M (list string) :=
  reference <- item0 (traces args) ;;
  (if bool_decide (config_difference (get_original_config reference)
                                     (get_original_config trace) ≠ ∅)
   then fatal (config_mismatch_message trace)
   else ret ()) ;;;
  if bool_decide (get_name trace ∈ names)
  then fatal (duplicate_name_message trace)
  else ret (names ++ [get_name trace]).

Definition compare_traces : M unit :=
  args <- get_args ;;
  let names := [] in
  foreach (traces args) names (compare_trace args) ;;;
  ret ().

(** * The external renderers *)

(** [generic_graph], [yerr_graph] ([graph.graph]), [graph_enclosure]
    ([graph.enclosure]), [scaling_graph] ([graph.scaling]) and
    [individual_graph] ([graph.individual]) are collaborators of the
    orchestration: each receives a graph request and returns the number of
    graphs it accounts for.  They are kept abstract; what they are asked for
    is recorded in the log. *)
Class Renderer := {
  generic_graph_count : Args → string → Bench → string → string → option axis → nat;
  yerr_graph_count : Args → string → Bench → string → string → nat;
  graph_enclosure_count : Args → string → string → nat;
  scaling_graph_count : Args → string → string → list string → nat;
  individual_graph_count : Args → string → string → list string → nat;
}.

(** A renderer that accounts one graph for every request it receives. *)
Class UnitRenderer (R : Renderer) : Prop := {
  generic_graph_one a d b c t x : generic_graph_count a d b c t x = 1;
  yerr_graph_one a d b c f : yerr_graph_count a d b c f = 1;
  graph_enclosure_one a n d : graph_enclosure_count a n d = 1;
  scaling_graph_one a d j ns : scaling_graph_count a d j ns = 1;
  individual_graph_one a d j ns : individual_graph_count a d j ns = 1;
}.

Section orchestration.
Context `{R : Renderer}.

Definition generic_graph (output_dir : string) (b : Bench)
    (component_type item_title : string) (second_axis : option axis) : M nat :=
  args <- get_args ;;
  emit (GenericGraph b component_type item_title second_axis) ;;;
  ret (generic_graph_count args output_dir b component_type item_title second_axis).

Definition yerr_graph (output_dir : string) (b : Bench)
    (component_type component : string) : M nat :=
  args <- get_args ;;
  emit (YerrGraph b component_type component) ;;;
  ret (yerr_graph_count args output_dir b component_type component).

Definition graph_enclosure (bench_name output_dir : string) : M nat :=
  args <- get_args ;;
  emit (GraphEnclosure bench_name) ;;;
  ret (graph_enclosure_count args bench_name output_dir).

Definition scaling_graph (output_dir job : string) (traces_name : list string) : M nat :=
  args <- get_args ;;
  emit (ScalingGraph job traces_name) ;;;
  ret (scaling_graph_count args output_dir job traces_name).

Definition individual_graph (output_dir job : string) (traces_name : list string) : M nat :=
  args <- get_args ;;
  emit (IndividualGraph job traces_name) ;;;
  ret (individual_graph_count args output_dir job traces_name).

(** * The per-bench dispatchers *)

Definition graph_fans (trace : Trace) (bench_name output_dir : string) : M nat :=
  let rendered_graphs := 0 in
  b <- bench trace bench_name ;;
  let fans := get_components b "fan" in
  match fans with
  | [] => print (bench_name +:+ ": no fans") ;;; ret rendered_graphs
  | _ =>
    rendered_graphs <- foreach [THERMAL; POWER] rendered_graphs
      (λ rendered_graphs second_axis,
        n <- generic_graph output_dir b "fan" "Fans speed" (Some second_axis) ;;
        ret (rendered_graphs + n)) ;;
    foreach fans rendered_graphs
      (λ rendered_graphs fan,
        n <- yerr_graph output_dir b "fan" fan ;;
        ret (rendered_graphs + n))
  end.

(** The dictionary [cpu_graphs], in insertion order. *)
Definition cpu_graphs : list (string * string) :=
  [ ("watt_core", "Core power consumption");
    ("package", "Package power consumption");
    ("mhz_core", "Core frequency") ].

Definition graph_cpu (trace : Trace) (bench_name output_dir : string) : M nat :=
  let rendered_graphs := 0 in
  b <- bench trace bench_name ;;
  foreach cpu_graphs rendered_graphs
    (λ rendered_graphs '(graph, title),
      foreach [None; Some THERMAL; Some POWER] rendered_graphs
        (λ rendered_graphs second_axis,
          n <- generic_graph output_dir b graph title second_axis ;;
          ret (rendered_graphs + n))).

Definition graph_thermal (trace : Trace) (bench_name output_dir : string) : M nat :=
  let rendered_graphs := 0 in
  b <- bench trace bench_name ;;
  n <- generic_graph output_dir b "temp" "Temperatures" None ;;
  ret (rendered_graphs + n).

(** * The environment stage *)

Definition missing_metric_message (metric : string) (t : Trace) : string :=
  "environment: missing '" +:+ metric +:+ "' monitoric metric in " +:+ get_filename t
    +:+ ", disabling same-enclosure print".

Definition chassis_not_unique_message : string :=
  "environment: chassis are not unique, disabling same-enclosure print".

(** The inner [try: for metric in ["chassis", "enclosure"]: ...]: the metric
    whose lookup raises [KeyError], if any. *)
Definition missing_metric (t : Trace) : option string :=
  List.find (λ metric, bool_decide (get_metric_mean t (first_bench t) metric = None))
            ["chassis"; "enclosure"].

(** The [for trace in args.traces] loop of [valid_traces]; falling off its
    end reaches [return ""]. *)
Fixpoint check_metrics (ts : list Trace) : string :=
  match ts with
  | [] => ""
  | t :: ts' =>
    match missing_metric t with
    | Some metric => missing_metric_message metric t
    | None => check_metrics ts'
    end
  end.

Definition valid_traces (args : Args) : string :=
  let chassis := map get_chassis_serial (traces args) in
  if bool_decide (length chassis = length (traces args))
  then check_metrics (traces args)
  else chassis_not_unique_message.

Definition same_enclosure_notice (enclosure : string) : string :=
  "environment: All traces are from the same enclosure (" +:+ enclosure
    +:+ "), enabling --same-enclosure feature".

(** Lines 130-138: the auto-detection of a shared enclosure.  A serial is
    truthy when it is reported and not the empty string. *)
Definition detect_same_enclosure : M unit :=
  args <- get_args ;;
  reference <- item0 (traces args) ;;
  match get_enclosure_serial reference with
  | Some enclosure =>
    if bool_decide (enclosure ≠ "") then
      let enclosures :=
        map (λ t, bool_decide (get_enclosure_serial t = Some enclosure)) (traces args) in
      if bool_decide (count_occ Bool.bool_dec enclosures true = length (traces args))
      then print (same_enclosure_notice enclosure) ;;; assign_same_enclosure true
      else ret ()
    else ret ()
  | None => ret ()
  end.

(** [dir.joinpath(name)], for [dir] a path object. *)
Definition joinpath (dir name : string) : string := Path (posix_join dir name).

Definition rendering_jobs_message (n : nat) (t : Trace) : string :=
  "environment: rendering " +:+ pretty n +:+ " jobs from " +:+ get_filename t
    +:+ " (" +:+ get_name t +:+ ")".

(** Lines 140-163: the validity gate and the environment-comparison graphs. *)
Definition enclosure_graphs (output_dir : string) (rendered_graphs : nat) : M nat :=
  args <- get_args ;;
  if same_enclosure args then
    let error_message := valid_traces args in
    if bool_decide (error_message = "") then
      reference <- item0 (traces args) ;;
      foreach (sorted (bench_list reference)) rendered_graphs
        (λ rendered_graphs bench_name,
          n <- graph_enclosure bench_name output_dir ;;
          ret (rendered_graphs + n))
    else print error_message ;;; ret rendered_graphs
  else ret rendered_graphs.

(** Lines 165-174: the per-trace, per-bench dispatch. *)
Definition per_trace_graphs (output_dir : string) (rendered_graphs : nat) : M nat :=
  args <- get_args ;;
  foreach (traces args) rendered_graphs
    (λ rendered_graphs trace,
      emit (Mkdir (joinpath output_dir (get_name trace))) ;;;
      let benches := bench_list trace in
      print (rendering_jobs_message (length benches) trace) ;;;
      foreach (sorted benches) rendered_graphs
        (λ rendered_graphs bench_name,
          n1 <- graph_fans trace bench_name output_dir ;;
          n2 <- graph_cpu trace bench_name output_dir ;;
          n3 <- graph_thermal trace bench_name output_dir ;;
          ret (rendered_graphs + n1 + n2 + n3))).

Definition graph_environment (output_dir : string) : M nat :=
  let rendered_graphs := 0 in
  args <- get_args ;;
  if negb (no_env args) then
    print "environment: disabled by user" ;;; ret rendered_graphs
  else
    detect_same_enclosure ;;;
    rendered_graphs <- enclosure_graphs output_dir rendered_graphs ;;
    per_trace_graphs output_dir rendered_graphs.

(** * Job aggregation, scaling and individual graphs *)

(** The body of the first loop of [plot_graphs]: [jobs] keeps a single
    entry per job type. *)
Definition collect_job (args : Args) (jobs : list string) (bench_name : string)
    : M (list string) :=
  reference <- item0 (traces args) ;;
  b <- bench reference bench_name ;;
  let job_name := job_name b in
  if bool_decide (job_name ∈ jobs) then ret jobs else ret (jobs ++ [job_name]).

Definition plot_graphs (output_dir : string) : M nat :=
  let jobs := [] in
  let rendered_graphs := 0 in
  args <- get_args ;;
  reference <- item0 (traces args) ;;
  jobs <- foreach (sorted (bench_list reference)) jobs (collect_job args) ;;
  let traces_name := map get_name (traces args) in
  print ("Scaling: rendering " +:+ pretty (length jobs) +:+ " jobs") ;;;
  rendered_graphs <- foreach jobs rendered_graphs
    (λ rendered_graphs job,
      n <- scaling_graph output_dir job traces_name ;;
      ret (rendered_graphs + n)) ;;
  print ("Individual: rendering " +:+ pretty (length jobs) +:+ " jobs") ;;;
  foreach jobs rendered_graphs
    (λ rendered_graphs job,
      n <- individual_graph output_dir job traces_name ;;
      ret (rendered_graphs + n)).

(** * The orchestrator *)

Definition graphs_found_message (rendered_graphs : nat) (output_dir : string) : string :=
  pretty rendered_graphs +:+ " graphs can be found in '" +:+ output_dir +:+ "' directory".

Definition render_traces : M unit :=
  let rendered_graphs := 0 in
  emit InitMatplotlib ;;;
  args <- get_args ;;
  let output_dir := Path (outdir args) in
  emit (Mkdir output_dir) ;;;
  n <- graph_environment output_dir ;;
  let rendered_graphs := rendered_graphs + n in
  compare_traces ;;;
  n <- plot_graphs output_dir ;;
  let rendered_graphs := rendered_graphs + n in
  print (graphs_found_message rendered_graphs output_dir).

End orchestration.

(** Running a computation on the [args] the user supplied, with an empty log. *)
Definition run {A} (m : M A) (args : Args) : outcome A * state :=
  m {| st_args := args; st_log := [] |}.

(** * Specification-level notions *)

(** The trace [t] omits at least one entry of the reference's configuration. *)
Definition omits_entry (reference t : Trace) : Prop :=
  ∃ entry, entry ∈ get_original_config reference ∧ entry ∉ get_original_config t.

(** No entry of the reference's configuration is missing from [t]. *)
Definition compatible_with (reference t : Trace) : Prop :=
  ∀ entry, entry ∈ get_original_config reference → entry ∈ get_original_config t.

(** The state [s] after the events [evs] were appended to its log. *)
Definition log_more (s : state) (evs : list event) : state :=
  {| st_args := st_args s; st_log := st_log s ++ evs |}.

(** The graph requests the spec lists for the fans of a bench: one combined
    fan-speed request per secondary axis in {thermal, power}, then one
    error-bar request per fan. *)
Definition fan_requests (b : Bench) (fans : list string) : list event :=
  [GenericGraph b "fan" "Fans speed" (Some THERMAL);
   GenericGraph b "fan" "Fans speed" (Some POWER)]
  ++ map (YerrGraph b "fan") fans.

(** The graph requests the spec lists for the CPU of a bench: the three
    metric families, each with the three secondary-axis variants. *)
Definition cpu_request_list : list (string * string * option axis) :=
  '(metric, title) ← [("watt_core", "Core power consumption");
                      ("package", "Package power consumption");
                      ("mhz_core", "Core frequency")];
  second_axis ← [None; Some THERMAL; Some POWER];
  [(metric, title, second_axis)].

Definition cpu_requests (b : Bench) : list event :=
  map (λ '(metric, title, second_axis), GenericGraph b metric title second_axis)
      cpu_request_list.

(** The distinct elements of a list, each at the place of its first
    occurrence. *)
Fixpoint first_occurrences (l : list string) : list string :=
  match l with
  | [] => []
  | x :: l' => x :: filter (λ y, y ≠ x) (first_occurrences l')
  end.

(** The job names of the benches of a trace, one per bench, in the sorted
    order of the bench names. *)
Definition bench_job_names (t : Trace) : list string :=
  omap (λ bench_name, job_name <$> benches t !! bench_name) (sorted (bench_list t)).

(** What the scaling and the individual stages are asked for, given the job
    identities and the logical names of the traces. *)
Definition plot_requests (jobs traces_name : list string) : list event :=
  [Print ("Scaling: rendering " +:+ pretty (length jobs) +:+ " jobs")]
  ++ map (λ job, ScalingGraph job traces_name) jobs
  ++ [Print ("Individual: rendering " +:+ pretty (length jobs) +:+ " jobs")]
  ++ map (λ job, IndividualGraph job traces_name) jobs.

(** The trace exposes both the [chassis] and the [enclosure] metric on its
    first bench. *)
Definition exposes_metrics (t : Trace) : Prop :=
  is_Some (get_metric_mean t (first_bench t) "chassis")
  ∧ is_Some (get_metric_mean t (first_bench t) "enclosure").

Global Instance exposes_metrics_dec t : Decision (exposes_metrics t) :=
  and_dec (is_Some_dec _) (is_Some_dec _).

(** The computation [m] always returns, leaves [args] alone and appends
    exactly the events [evs] to the log. *)
Definition emits {A} (m : M A) (evs : list event) : Prop :=
  ∀ s, ∃ a, m s = (Done a, log_more s evs).

(** What the fan dispatcher leaves in the log for the bench [b]. *)
Definition fan_events (bench_name : string) (b : Bench) : list event :=
  match get_components b "fan" with
  | [] => [Print (bench_name +:+ ": no fans")]
  | fans => fan_requests b fans
  end.

(** The fan, CPU and thermal dispatch of one bench. *)
Definition bench_events (bench_name : string) (b : Bench) : list event :=
  fan_events bench_name b ++ cpu_requests b
  ++ [GenericGraph b "temp" "Temperatures" None].

(** The per-trace part of the environment stage for one trace: its
    sub-directory, its summary line, then its benches in sorted order. *)
Definition trace_events (output_dir : string) (t : Trace) : list event :=
  [Mkdir (joinpath output_dir (get_name t));
   Print (rendering_jobs_message (length (bench_list t)) t)]
  ++ concat (map (λ bench_name,
                    match benches t !! bench_name with
                    | Some b => bench_events bench_name b
                    | None => []
                    end)
                 (sorted (bench_list t))).

Definition per_trace_events (output_dir : string) (ts : list Trace) : list event :=
  concat (map (trace_events output_dir) ts).

(** The enclosure serial shared by the whole Comparison Set, when the
    reference reports a non-empty one and every trace reports the same. *)
Definition shared_enclosure (ts : list Trace) : option string :=
  match ts with
  | [] => None
  | reference :: _ =>
    match get_enclosure_serial reference with
    | Some serial =>
      if decide (serial ≠ "" ∧ Forall (λ t, get_enclosure_serial t = Some serial) ts)
      then Some serial else None
    | None => None
    end
  end.

(** The notice of the auto-detection, when it fires. *)
Definition detection_events (ts : list Trace) : list event :=
  match shared_enclosure ts with
  | Some serial =>
    [Print ("environment: All traces are from the same enclosure (" +:+ serial
            +:+ "), enabling --same-enclosure feature")]
  | None => []
  end.

Definition is_graph_enclosure (e : event) : bool :=
  match e with GraphEnclosure _ => true | _ => false end.

(** The events that are graph requests to a renderer. *)
Definition is_graph_request (e : event) : bool :=
  match e with
  | GenericGraph _ _ _ _ | YerrGraph _ _ _ | GraphEnclosure _
  | ScalingGraph _ _ | IndividualGraph _ _ => true
  | InitMatplotlib | Mkdir _ | Print _ => false
  end.

(** The validator rejects the Comparison Set [ts] with [reason], whatever
    else the state holds. *)
Definition rejects (ts : list Trace) (reason : string) : Prop :=
  ∀ s, traces (st_args s) = ts → compare_traces s = (Fatal reason, s).

(** * Sample comparison sets *)

(** The renderer that accounts exactly one graph per request. *)
Definition unit_renderer : Renderer := {|
  generic_graph_count _ _ _ _ _ _ := 1;
  yerr_graph_count _ _ _ _ _ := 1;
  graph_enclosure_count _ _ _ := 1;
  scaling_graph_count _ _ _ _ := 1;
  individual_graph_count _ _ _ _ := 1;
|}.

Definition sample_bench (job : string) (fans metrics : list string) : Bench := {|
  job_name := job;
  get_components kind := if bool_decide (kind = "fan") then fans else [];
  metric_mean := list_to_map ((λ metric, (metric, 0%Z)) <$> metrics);
|}.

Definition sample_trace (file name : string) (config : list string)
    (enclosure chassis : option string) (first : Bench)
    (bs : list (string * Bench)) : Trace := {|
  filename := file;
  get_name := name;
  power_metric := "watts";
  get_original_config := config;
  get_enclosure_serial := enclosure;
  get_chassis_serial := chassis;
  benches := list_to_map bs;
  first_bench := first;
|}.

Definition sample_args (ts : list Trace) : Args :=
  {| traces := ts; no_env := true; same_enclosure := false; outdir := "out" |}.

Definition avx_1 : Bench := sample_bench "avx" ["fan1"; "fan2"] ["chassis"; "enclosure"].
Definition avx_2 : Bench := sample_bench "avx" [] ["chassis"; "enclosure"].

(** Two traces of the same configuration, from one enclosure. *)
Definition sysA : Trace :=
  sample_trace "a.json" "sysA" ["avx"; "cpu"] (Some "ENC1") (Some "CH1") avx_1
    [("avx_1", avx_1); ("avx_2", avx_2)].
Definition sysB : Trace :=
  sample_trace "b.json" "sysB" ["avx"; "cpu"] (Some "ENC1") (Some "CH2") avx_1
    [("avx_1", avx_1); ("avx_2", avx_2)].

(** A trace that reuses the logical name of [sysA]. *)
Definition sysA_again : Trace :=
  sample_trace "a2.json" "sysA" ["avx"; "cpu"] (Some "ENC1") (Some "CH3") avx_1
    [("avx_1", avx_1)].

(** A trace whose configuration lacks the [cpu] job of the others. *)
Definition sysC : Trace :=
  sample_trace "c.json" "sysC" ["avx"] (Some "ENC2") (Some "CH4") avx_1
    [("avx_1", avx_1)].

(** A trace whose benches, in sorted order, run the jobs A, B, A, C. *)
Definition ramp : Trace :=
  sample_trace "ramp.json" "ramp" ["A"; "B"; "C"] None None (sample_bench "A" [] [])
    [("bench_3", sample_bench "A" [] []); ("bench_1", sample_bench "A" [] []);
     ("bench_4", sample_bench "C" [] []); ("bench_2", sample_bench "B" [] [])].

(** A trace of the same enclosure whose first bench has no [enclosure]
    metric. *)
Definition avx_bare : Bench := sample_bench "avx" [] ["chassis"].
Definition sysD : Trace :=
  sample_trace "d.json" "sysD" ["avx"; "cpu"] (Some "ENC1") (Some "CH5") avx_bare
    [("avx_1", avx_bare)].

(** * Further notions *)

(** What a stage may do to [args]: the trace list, [no_env] and [outdir] are
    never assigned, and [same_enclosure] is only ever set to true. *)
Definition args_kept (a a' : Args) : Prop :=
  traces a' = traces a ∧ no_env a' = no_env a ∧ outdir a' = outdir a
  ∧ (same_enclosure a = true → same_enclosure a' = true).

(** Whatever its outcome, the computation [m] keeps [args] in the sense of
    [args_kept], never rewrites the log and only appends events that
    satisfy [P]. *)
Definition appends {A} (P : event → Prop) (m : M A) : Prop :=
  ∀ s o s', m s = (o, s') →
    args_kept (st_args s) (st_args s')
    ∧ ∃ evs, st_log s' = st_log s ++ evs ∧ Forall P evs.

(** The requests of the scaling and individual stages. *)
Definition is_plot_request (e : event) : bool :=
  match e with
  | ScalingGraph _ _ | IndividualGraph _ _ => true
  | _ => false
  end.

(** The number of graph requests among the events [evs]. *)
Definition graph_requests (evs : list event) : nat :=
  length (filter (λ e, is_graph_request e = true) evs).

(** A sample trace with one more configuration entry than [sysA]. *)
Definition sysE : Trace :=
  sample_trace "e.json" "sysE" ["avx"; "cpu"; "memory"] (Some "ENC1") (Some "CH6") avx_1
    [("avx_1", avx_1)].

(** [args] once the auto-detection has run. *)
Definition after_detection (args : Args) : Args :=
  match shared_enclosure (traces args) with
  | Some _ => set_same_enclosure true args
  | None => args
  end.

(** The notice of the validity gate, in full: it names the first metric,
    of [chassis] then [enclosure], that the first trace lacking one lacks,
    and the file of that trace.  It is empty when every trace exposes both
    metrics. *)
Fixpoint disabling_notice (ts : list Trace) : string :=
  match ts with
  | [] => ""
  | t :: ts' =>
    if decide (exposes_metrics t) then disabling_notice ts'
    else "environment: missing '"
         +:+ (if decide (is_Some (get_metric_mean t (first_bench t) "chassis"))
              then "enclosure" else "chassis")
         +:+ "' monitoric metric in " +:+ filename t
         +:+ ", disabling same-enclosure print"
  end.

(** What the validity gate leaves in the log, given [args] as the gate
    reads it: nothing when the preference is off, the
    environment-comparison requests for the reference's benches when every
    trace exposes the metrics, the notice otherwise. *)
Definition enclosure_events (args : Args) : list event :=
  if same_enclosure args then
    match traces args with
    | reference :: _ =>
      if decide (Forall exposes_metrics (traces args))
      then map GraphEnclosure (sorted (bench_list reference))
      else [Print (disabling_notice (traces args))]
    | [] => []
    end
  else [].

(** The computation [m], when it returns [n], has appended events of which
    [n - base] are graph requests. *)
Definition tallies (base : nat) (m : M nat) : Prop :=
  ∀ s n s', m s = (Done n, s') →
    ∃ evs, st_log s' = st_log s ++ evs ∧ n = base + graph_requests evs.

(** The computation [m], when it returns, has appended no graph request. *)
Definition quiet {A} (m : M A) : Prop :=
  ∀ s a s', m s = (Done a, s') →
    ∃ evs, st_log s' = st_log s ++ evs ∧ graph_requests evs = 0.

(** * The trace argument *)

(** The regular expression of [valid_trace_file] uses two constructs: a
    named group holding a greedy dot-star, over any character but the
    newline, and a literal character. *)
Inductive token :=
  | AnyGroup
  | Literal (c : Ascii.ascii).

Definition newline : Ascii.ascii := "010"%char.

(** Matching a pattern at the start of a string, the way a backtracking
    matcher does: a group first takes as many characters as it can, the rest
    of the pattern is tried, and the group gives characters back one by one
    until the rest matches.  The result lists what the groups captured. *)
Fixpoint match_at (p : list token) : string → option (list string) :=
  match p with
  | [] => λ _, Some []
  | Literal c :: p' => λ s,
    match s with
    | String c' s' => if bool_decide (c' = c) then match_at p' s' else None
    | EmptyString => None
    end
  | AnyGroup :: p' =>
    fix group (s : string) : option (list string) :=
      let stop_here :=
        match match_at p' s with
        | Some captures => Some ("" :: captures)
        | None => None
        end in
      match s with
      | String c s' =>
        if bool_decide (c = newline) then stop_here
        else match group s' with
             | Some (capture :: captures) => Some (String c capture :: captures)
             | _ => stop_here
             end
      | EmptyString => stop_here
      end
  end.

(** [re.search]: the match at the leftmost position that has one. *)
Fixpoint re_search (p : list token) (s : string) : option (list string) :=
  match match_at p s with
  | Some captures => Some captures
  | None =>
    match s with
    | String _ s' => re_search p s'
    | EmptyString => None
    end
  end.

(** The pattern of [valid_trace_file]: the groups [filename],
    [logical_name] and [power_metric], separated by colons. *)
Definition trace_arg_pattern : list token :=
  [AnyGroup; Literal ":"%char; AnyGroup; Literal ":"%char; AnyGroup].

(** What the argparse type returns: the error it raises, or the trace. *)
Inductive trace_arg_result (T : Type) :=
  | ArgumentTypeError (message : string)
  | Accepted (trace : T).
Arguments ArgumentTypeError {T} message.
Arguments Accepted {T} trace.

(** [valid_trace_file]; [new_trace] stands for the constructor of [Trace]
    followed by [validate()], both outside the sources at hand. *)
Definition valid_trace_file {T} (new_trace : string → string → string → T)
    (trace_arg : string) : trace_arg_result T :=
  match re_search trace_arg_pattern trace_arg with
  | Some [filename; logical_name; power_metric] =>
    Accepted (new_trace filename logical_name power_metric)
  | _ =>
    ArgumentTypeError
      (trace_arg +:+ " does not match 'filename:logical_name:power_metric' syntax")
  end.

(** The number of occurrences of a character in a string. *)
Fixpoint count_char (c : Ascii.ascii) (s : string) : nat :=
  match s with
  | EmptyString => 0
  | String c' s' => (if bool_decide (c' = c) then 1 else 0) + count_char c s'
  end.

(** The first line of a string: what precedes its first newline. *)
Fixpoint first_line (s : string) : string :=
  match s with
  | EmptyString => ""
  | String c s' => if bool_decide (c = newline) then "" else String c (first_line s')
  end.

(** * hwbench: the output directory *)

(** What a path of the file system holds. *)
Inductive entry := Directory | RegularFile.

(** The errors [pathlib.Path.mkdir] raises, with the offending path. *)
Inductive os_error :=
  | FileExistsError (path : string)
  | FileNotFoundError (path : string)
  | NotADirectoryError (path : string).

(** [path.mkdir()] with its defaults ([parents=False], [exist_ok=False]) on
    a file system given as the map of its existing paths: an existing path
    is an error, whatever it holds, and so is a parent that is missing or
    not a directory.  [parent] is [None] for a path relative to the current
    directory, which exists. *)
Definition path_mkdir (path : string) (parent : option string)
    (fs : gmap string entry) : os_error + gmap string entry :=
  match fs !! path with
  | Some _ => inl (FileExistsError path)
  | None =>
    match parent with
    | None => inr (<[path := Directory]> fs)
    | Some dir =>
      match fs !! dir with
      | Some Directory => inr (<[path := Directory]> fs)
      | Some RegularFile => inl (NotADirectoryError path)
      | None => inl (FileNotFoundError path)
      end
    end
  end.

(** [create_output_directory] of [hwbench/hwbench.py]; [stamp] is what
    [time.strftime] returns for the format of the source, year to second. *)
Definition create_output_directory (stamp : string) (fs : gmap string entry)
    : os_error + (string * string * gmap string entry) :=
  let out_dir := "hwbench-out-" +:+ stamp in
  match path_mkdir out_dir None fs with
  | inl e => inl e
  | inr fs =>
    let tuning_out_dir := out_dir +:+ "/tuning" in
    match path_mkdir tuning_out_dir (Some out_dir) fs with
    | inl e => inl e
    | inr fs => inr (out_dir, tuning_out_dir, fs)
    end
  end.

(** The lines [ls], each closed by a newline. *)
Fixpoint unlines (ls : list string) : string :=
  match ls with
  | [] => ""
  | line :: ls' => line +:+ String newline (unlines ls')
  end.

(** A trace that reuses the logical name of [sysA] and whose first bench has
    no [enclosure] metric. *)
Definition sysA_bare : Trace :=
  sample_trace "d2.json" "sysA" ["avx"; "cpu"] (Some "ENC1") (Some "CH7") avx_bare
    [("avx_1", avx_bare)].

(** A trace whose logical name is an absolute path. *)
Definition sys_abs : Trace :=
  sample_trace "abs.json" "/tmp/abs" ["avx"; "cpu"] None None avx_2 [("avx_2", avx_2)].

(** * Paths *)

(** The output directory is written without its trailing slash; a logical
    name is appended to it as a sub-directory, unless it is absolute, in
    which case it replaces the output directory. *)
Lemma path_examples :
  Path "out/" = "out" ∧ Path "./out//graphs/" = "out/graphs" ∧ Path "" = "."
  ∧ Path "///srv/out" = "/srv/out" ∧ Path "//srv/out" = "//srv/out"
  ∧ joinpath "out" "sysA" = "out/sysA" ∧ joinpath "out" "a/" = "out/a"
  ∧ joinpath "out" "" = "out" ∧ joinpath "." "sysA" = "sysA"
  ∧ joinpath "out" "/tmp/abs" = "/tmp/abs".
Proof. by split_and!. Qed.

(** An absolute name replaces the directory it is joined to. *)
Lemma joinpath_absolute dir name :
  starts_with_slash name = true → joinpath dir name = Path name.
Proof. intros Habs. unfold joinpath, posix_join. by rewrite Habs. Qed.

(** * Facts about the monad *)

Lemma bind_done {A B} (m : M A) (k : A → M B) s a s' :
  m s = (Done a, s') → bind m k s = k a s'.
Proof. unfold bind. by intros ->. Qed.

Lemma bind_fatal {A B} (m : M A) (k : A → M B) s r s' :
  m s = (Fatal r, s') → bind m k s = (Fatal r, s').
Proof. unfold bind. by intros ->. Qed.

Lemma foreach_app {A S} (l1 l2 : list A) (acc : S) (body : S → A → M S) s :
  foreach (l1 ++ l2) acc body s
  = bind (foreach l1 acc body) (λ acc', foreach l2 acc' body) s.
Proof.
  revert acc s. induction l1 as [|x l1 IH]; intros acc s; simpl.
  - reflexivity.
  - unfold bind at 1 3. unfold bind at 1.
    destruct (body acc x s) as [[acc'|r|e] s']; [apply IH|reflexivity..].
Qed.

(** * The compatibility validator *)

Lemma config_difference_nonempty reference config :
  config_difference reference config ≠ ∅
  ↔ ∃ entry, entry ∈ reference ∧ entry ∉ config.
Proof.
  unfold config_difference. split.
  - intros Hne. apply set_choose_L in Hne as [entry Hentry].
    exists entry. set_solver.
  - intros (entry & Hin & Hnot). set_solver.
Qed.

Lemma config_difference_empty reference config :
  config_difference reference config = ∅
  ↔ ∀ entry, entry ∈ reference → entry ∈ config.
Proof.
  unfold config_difference. split.
  - intros Hempty entry Hin.
    destruct (decide (entry ∈ config)) as [|Hnot]; [done|].
    assert (entry ∈ (∅ : gset string)) as Habs; [|set_solver].
    rewrite <- Hempty. set_solver.
  - intros Hall. apply set_eq. intros entry.
    rewrite elem_of_difference, !elem_of_list_to_set. split.
    + intros [Hin Hnot]. destruct Hnot. by apply Hall.
    + intros Habs. by apply not_elem_of_empty in Habs.
Qed.

(** One iteration on a trace that passes both checks. *)
Lemma compare_trace_accepts args reference rest names t s :
  traces args = reference :: rest →
  compatible_with reference t →
  get_name t ∉ names →
  compare_trace args names t s = (Done (names ++ [get_name t]), s).
Proof.
  intros Hargs Hcompat Hfresh. unfold compare_trace. rewrite Hargs. simpl.
  unfold bind, ret. simpl.
  rewrite bool_decide_eq_false_2.
  2: { intros Hne. by apply Hne, config_difference_empty. }
  simpl. by rewrite bool_decide_eq_false_2.
Qed.

(** One iteration on a trace whose configuration misses a reference entry. *)
Lemma compare_trace_mismatch args reference rest names t s :
  traces args = reference :: rest →
  omits_entry reference t →
  compare_trace args names t s = (Fatal (config_mismatch_message t), s).
Proof.
  intros Hargs Homits. unfold compare_trace. rewrite Hargs. simpl.
  unfold bind, ret. simpl.
  rewrite bool_decide_eq_true_2; [done|].
  by apply config_difference_nonempty.
Qed.

(** One iteration on a compatible trace whose name was already seen. *)
Lemma compare_trace_duplicate args reference rest names t s :
  traces args = reference :: rest →
  compatible_with reference t →
  get_name t ∈ names →
  compare_trace args names t s = (Fatal (duplicate_name_message t), s).
Proof.
  intros Hargs Hcompat Hseen. unfold compare_trace. rewrite Hargs. simpl.
  unfold bind, ret. simpl.
  rewrite bool_decide_eq_false_2.
  2: { intros Hne. by apply Hne, config_difference_empty. }
  simpl. by rewrite bool_decide_eq_true_2.
Qed.

(** The loop over a run of compatible traces with fresh names collects
    their names, in order, and touches nothing. *)
Lemma compare_loop_accepts args reference rest ts names s :
  traces args = reference :: rest →
  Forall (compatible_with reference) ts →
  NoDup (names ++ map get_name ts) →
  foreach ts names (compare_trace args) s = (Done (names ++ map get_name ts), s).
Proof.
  intros Hargs. revert names.
  induction ts as [|t ts IH]; intros names Hcompat Hnodup; simpl.
  - by rewrite app_nil_r.
  - apply Forall_cons in Hcompat as [Ht Hts].
    simpl in Hnodup. rewrite cons_middle, app_assoc in Hnodup.
    erewrite bind_done.
    2: { eapply compare_trace_accepts; [done..|].
         apply NoDup_app in Hnodup as [Hnames _].
         apply NoDup_app in Hnames as (_ & Hdisj & _).
         intros Hin. apply (Hdisj _ Hin). set_solver. }
    rewrite IH by done. by rewrite <- app_assoc.
Qed.

(** The validator stops at the first trace whose name was already seen, as
    long as every trace up to it is compatible with the reference. *)
Lemma compare_traces_stops_at_duplicate s reference rest pre t post :
  traces (st_args s) = reference :: rest →
  traces (st_args s) = pre ++ t :: post →
  Forall (compatible_with reference) (pre ++ [t]) →
  NoDup (map get_name pre) →
  get_name t ∈ map get_name pre →
  compare_traces s = (Fatal (duplicate_name_message t), s).
Proof.
  intros Href Hsplit Hcompat Hnodup Hseen.
  apply Forall_app in Hcompat as [Hpre Ht]. rewrite Forall_singleton in Ht.
  unfold compare_traces, get_args. unfold bind at 1. rewrite Hsplit.
  apply bind_fatal. rewrite foreach_app.
  erewrite bind_done by (by eapply compare_loop_accepts). simpl.
  apply bind_fatal. by eapply compare_trace_duplicate.
Qed.

(** The validator stops at the first trace that omits a reference entry, as
    long as the traces before it are compatible and pairwise distinctly
    named. *)
Lemma compare_traces_stops_at_mismatch s reference rest pre t post :
  traces (st_args s) = reference :: rest →
  traces (st_args s) = pre ++ t :: post →
  Forall (compatible_with reference) pre →
  NoDup (map get_name pre) →
  omits_entry reference t →
  compare_traces s = (Fatal (config_mismatch_message t), s).
Proof.
  intros Href Hsplit Hpre Hnodup Homits.
  unfold compare_traces, get_args. unfold bind at 1. rewrite Hsplit.
  apply bind_fatal. rewrite foreach_app.
  erewrite bind_done by (by eapply compare_loop_accepts). simpl.
  apply bind_fatal. by eapply compare_trace_mismatch.
Qed.

(** A list with a repeated key has a first element whose key occurred
    before it. *)
Lemma first_repeated_key {A} (f : A → string) (l : list A) :
  ¬ NoDup (map f l) →
  ∃ pre x post, l = pre ++ x :: post ∧ NoDup (map f pre) ∧ f x ∈ map f pre.
Proof.
  induction l as [|x l IH] using rev_ind; intros Hdup.
  - destruct Hdup. constructor.
  - destruct (decide (NoDup (map f l))) as [Hnodup|Hdup'].
    + exists l, x, []. split_and!; [done..|].
      destruct (decide (f x ∈ map f l)) as [|Hfresh]; [done|].
      destruct Hdup. rewrite map_app. apply NoDup_app. split_and!; [done| |].
      * intros y Hy Hx. simpl in Hx. apply list_elem_of_singleton in Hx. by subst.
      * apply NoDup_singleton.
    + destruct (IH Hdup') as (pre & y & post & -> & Hpre & Hy).
      exists pre, y, (post ++ [x]). by rewrite <- app_assoc.
Qed.

(** A Comparison Set of compatible, distinctly named traces passes the
    validator, which leaves the state untouched. *)
Lemma validator_accepts_compatible s reference rest :
  traces (st_args s) = reference :: rest →
  Forall (compatible_with reference) (traces (st_args s)) →
  NoDup (map get_name (traces (st_args s))) →
  compare_traces s = (Done (), s).
Proof.
  intros Href Hcompat Hnodup.
  unfold compare_traces, get_args. unfold bind at 1.
  erewrite bind_done; [reflexivity|].
  by eapply compare_loop_accepts.
Qed.

(** C4: on a Comparison Set in which every trace's [original_config] equals
    the reference's and all logical names are pairwise distinct, the
    Compatibility Validator does not abort: it returns normally and leaves
    the state untouched.  The single-trace set is the degenerate case: the
    reference is compared against itself and the validator returns. *)
Theorem compare_traces_accepts :
  (∀ s reference rest,
     traces (st_args s) = reference :: rest →
     Forall (λ t, get_original_config t = get_original_config reference)
            (traces (st_args s)) →
     NoDup (map get_name (traces (st_args s))) →
     compare_traces s = (Done (), s))
  ∧ (∀ s t, traces (st_args s) = [t] → compare_traces s = (Done (), s)).
Proof.
  split.
  - intros s reference rest Href Hsame Hnodup.
    eapply validator_accepts_compatible; [done| |done].
    eapply Forall_impl; [exact Hsame|]. intros t Ht entry. by rewrite Ht.
  - intros s t Hsingle. eapply validator_accepts_compatible; [done| |].
    + rewrite Hsingle. apply Forall_singleton. by intros entry.
    + rewrite Hsingle. apply NoDup_singleton.
Qed.

Lemma compare_traces_accepts_witness :
  run compare_traces (sample_args [sysA; sysB])
    = (Done (), {| st_args := sample_args [sysA; sysB]; st_log := [] |})
  ∧ run compare_traces (sample_args [sysC])
    = (Done (), {| st_args := sample_args [sysC]; st_log := [] |}).
Proof.
  split.
  - apply (proj1 compare_traces_accepts _ sysA [sysB]).
    + reflexivity.
    + repeat constructor.
    + compute_done.
  - apply (proj2 compare_traces_accepts _ sysC). reflexivity.
Defined.

(** C3: on a Comparison Set whose configurations are all compatible and in
    which the traces at positions [i < j] share a logical name, the
    Compatibility Validator aborts fatally, wherever the pair sits: it stops
    at the first trace in input order whose name was already seen (at
    position [j] at the latest), with the duplicate-name error built from
    that trace's filename and logical name; when no name repeats before
    position [j], that trace is the second of the pair. *)
Theorem compare_traces_rejects_duplicate_name s reference rest i j ti tj :
  traces (st_args s) = reference :: rest →
  Forall (compatible_with reference) (traces (st_args s)) →
  i < j →
  traces (st_args s) !! i = Some ti →
  traces (st_args s) !! j = Some tj →
  get_name ti = get_name tj →
  (∃ pre t post,
      traces (st_args s) = pre ++ t :: post ∧ length pre ≤ j
      ∧ NoDup (map get_name pre) ∧ get_name t ∈ map get_name pre
      ∧ compare_traces s = (Fatal (duplicate_name_message t), s))
  ∧ (NoDup (map get_name (take j (traces (st_args s)))) →
     compare_traces s = (Fatal (duplicate_name_message tj), s)).
Proof.
  intros Href Hcompat Hij Hi Hj Hname.
  pose proof (take_drop_middle _ _ _ Hj) as Hmid.
  assert (get_name tj ∈ map get_name (take j (traces (st_args s)))) as Hseen.
  { rewrite <- Hname. apply list_elem_of_In, in_map, list_elem_of_In.
    apply list_elem_of_lookup. exists i. by rewrite lookup_take_lt. }
  split.
  - destruct (first_repeated_key get_name (take j (traces (st_args s)) ++ [tj]))
      as (pre & t & post & Hsplit & Hpre & Ht).
    { rewrite map_app. simpl. intros Hnodup.
      apply NoDup_app in Hnodup as (_ & Hdisj & _).
      apply (Hdisj _ Hseen). apply list_elem_of_singleton. reflexivity. }
    assert (traces (st_args s)
            = pre ++ t :: (post ++ drop (S j) (traces (st_args s)))) as Hall.
    { rewrite <- Hmid at 1. rewrite cons_middle, app_assoc, Hsplit.
      by rewrite <- !app_assoc. }
    exists pre, t, (post ++ drop (S j) (traces (st_args s))).
    split_and!; [done| |done|done|].
    + apply (f_equal length) in Hsplit.
      rewrite !length_app, length_take in Hsplit. simpl in Hsplit. lia.
    + eapply compare_traces_stops_at_duplicate; [done..| |done|done].
      rewrite Hall in Hcompat. rewrite cons_middle, app_assoc in Hcompat.
      by apply Forall_app in Hcompat as [? _].
  - intros Hnodup.
    eapply compare_traces_stops_at_duplicate; [done|by rewrite Hmid| |done|done].
    rewrite <- Hmid, cons_middle, app_assoc in Hcompat.
    by apply Forall_app in Hcompat as [? _].
Qed.

Lemma sysA_compatible (t : Trace) :
  get_original_config t = ["avx"; "cpu"] → compatible_with sysA t.
Proof. intros Ht entry. by rewrite Ht. Qed.

Lemma compare_traces_rejects_duplicate_name_witness :
  run compare_traces (sample_args [sysA; sysB; sysA_again])
  = (Fatal "a2.json is using 'sysA' as logical_name while it's already in use",
     {| st_args := sample_args [sysA; sysB; sysA_again]; st_log := [] |}).
Proof.
  refine (proj2 (compare_traces_rejects_duplicate_name
    {| st_args := sample_args [sysA; sysB; sysA_again]; st_log := [] |}
    sysA [sysB; sysA_again] 0 2 sysA sysA_again _ _ _ _ _ _) _).
  - reflexivity.
  - repeat (constructor; [by apply sysA_compatible|]). constructor.
  - lia.
  - reflexivity.
  - reflexivity.
  - reflexivity.
  - compute_done.
Defined.

(** C2, as stated, fails: in [sysA; sysA_again; sysC] the first trace that
    omits a reference entry is [sysC], yet the validator has already stopped
    at [sysA_again], whose logical name repeats, and names that trace. *)
Lemma compare_traces_mismatch_after_duplicate :
  omits_entry sysA sysC
  ∧ compatible_with sysA sysA ∧ compatible_with sysA sysA_again
  ∧ (run compare_traces (sample_args [sysA; sysA_again; sysC])).1
    = Fatal (duplicate_name_message sysA_again)
  ∧ (run compare_traces (sample_args [sysA; sysA_again; sysC])).1
    ≠ Fatal (config_mismatch_message sysC).
Proof.
  split_and!.
  - exists "cpu". split; compute_done.
  - by apply sysA_compatible.
  - by apply sysA_compatible.
  - reflexivity.
  - discriminate.
Qed.

(** C2 (amended): when [t] is the first trace in input order whose
    [original_config] omits an entry of the reference's, and the traces
    before it carry pairwise distinct logical names, the Compatibility
    Validator aborts fatally with the configuration-mismatch error naming
    the filename of [t]; the state is as it was when the validator started
    and nothing placed after the validator runs. *)
Theorem compare_traces_rejects_mismatch s reference rest pre t post :
  traces (st_args s) = reference :: rest →
  traces (st_args s) = pre ++ t :: post →
  Forall (compatible_with reference) pre →
  omits_entry reference t →
  NoDup (map get_name pre) →
  compare_traces s = (Fatal (config_mismatch_message t), s)
  ∧ ∀ B (k : unit → M B),
      bind compare_traces k s = (Fatal (config_mismatch_message t), s).
Proof.
  intros Href Hsplit Hpre Homits Hnodup.
  assert (compare_traces s = (Fatal (config_mismatch_message t), s)) as Hstop
    by by eapply compare_traces_stops_at_mismatch.
  split; [done|]. intros B k. by apply bind_fatal.
Qed.

Lemma compare_traces_rejects_mismatch_witness :
  run compare_traces (sample_args [sysA; sysB; sysC])
  = (Fatal "c.json is not having the same configuration file as previous traces",
     {| st_args := sample_args [sysA; sysB; sysC]; st_log := [] |}).
Proof.
  refine (proj1 (compare_traces_rejects_mismatch
    {| st_args := sample_args [sysA; sysB; sysC]; st_log := [] |}
    sysA [sysB; sysC] [sysA; sysB] sysC [] _ _ _ _ _)).
  - reflexivity.
  - reflexivity.
  - repeat (constructor; [by apply sysA_compatible|]). constructor.
  - exists "cpu". split; compute_done.
  - compute_done.
Defined.

(** * The per-bench dispatchers *)

Lemma log_more_nil s : log_more s [] = s.
Proof. destruct s. unfold log_more. simpl. by rewrite app_nil_r. Qed.

Lemma log_more_app s evs1 evs2 :
  log_more (log_more s evs1) evs2 = log_more s (evs1 ++ evs2).
Proof. unfold log_more. simpl. by rewrite app_assoc. Qed.

Lemma st_args_log_more s evs : st_args (log_more s evs) = st_args s.
Proof. reflexivity. Qed.

(** A counting loop [for x in l: rendered_graphs += act(x)] whose action
    always returns, appends its own events and leaves [args] alone. *)
Lemma foreach_count {A} (act : A → M nat) (cnt : Args → A → nat)
    (evs : A → list event) (l : list A) (acc : nat) s :
  (∀ x s', act x s' = (Done (cnt (st_args s') x), log_more s' (evs x))) →
  foreach l acc (λ rendered_graphs x, n <- act x ;; ret (rendered_graphs + n)) s
  = (Done (acc + sum_list (map (cnt (st_args s)) l)),
     log_more s (concat (map evs l))).
Proof.
  intros Hact. revert acc s. induction l as [|x l IH]; intros acc s; simpl.
  - unfold ret. by rewrite log_more_nil, Nat.add_0_r.
  - unfold bind at 1. unfold bind at 1. rewrite Hact. unfold ret at 1.
    rewrite IH, log_more_app, st_args_log_more. do 2 f_equal. lia.
Qed.

Section dispatch.
Context `{R : Renderer}.

Lemma generic_graph_spec output_dir b component_type item_title second_axis s :
  generic_graph output_dir b component_type item_title second_axis s
  = (Done (generic_graph_count (st_args s) output_dir b component_type
                               item_title second_axis),
     log_more s [GenericGraph b component_type item_title second_axis]).
Proof. reflexivity. Qed.

Lemma yerr_graph_spec output_dir b component_type component s :
  yerr_graph output_dir b component_type component s
  = (Done (yerr_graph_count (st_args s) output_dir b component_type component),
     log_more s [YerrGraph b component_type component]).
Proof. reflexivity. Qed.

Lemma sum_list_ones {A} (l : list A) : sum_list (map (λ _, 1) l) = length l.
Proof. induction l; simpl; congruence. Qed.

(** The error-bar loop over the fans of a bench. *)
Lemma yerr_loop_spec output_dir b fans acc s :
  foreach fans acc
    (λ rendered_graphs fan,
      n <- yerr_graph output_dir b "fan" fan ;; ret (rendered_graphs + n)) s
  = (Done (acc + sum_list (map (yerr_graph_count (st_args s) output_dir b "fan") fans)),
     log_more s (map (YerrGraph b "fan") fans)).
Proof.
  rewrite (foreach_count (yerr_graph output_dir b "fan")
             (λ args, yerr_graph_count args output_dir b "fan")
             (λ fan, [YerrGraph b "fan" fan])) by (intros; apply yerr_graph_spec).
  do 2 f_equal. induction fans; simpl; congruence.
Qed.

(** What [graph_fans] does on a bench with at least one fan, whatever the
    renderer accounts for each request. *)
Lemma graph_fans_requests trace bench_name output_dir b s :
  benches trace !! bench_name = Some b →
  get_components b "fan" ≠ [] →
  graph_fans trace bench_name output_dir s
  = (Done (generic_graph_count (st_args s) output_dir b "fan" "Fans speed" (Some THERMAL)
           + generic_graph_count (st_args s) output_dir b "fan" "Fans speed" (Some POWER)
           + sum_list (map (yerr_graph_count (st_args s) output_dir b "fan")
                           (get_components b "fan"))),
     log_more s (fan_requests b (get_components b "fan"))).
Proof.
  intros Hbench Hfans. unfold graph_fans, bench. rewrite Hbench.
  unfold bind at 1. unfold ret at 1.
  destruct (get_components b "fan") as [|fan fans] eqn:Hcomp; [done|].
  erewrite bind_done by reflexivity.
  rewrite yerr_loop_spec. unfold log_more, fan_requests. simpl.
  by rewrite <- !app_assoc.
Qed.

Lemma graph_fans_no_fans trace bench_name output_dir b s :
  benches trace !! bench_name = Some b →
  get_components b "fan" = [] →
  graph_fans trace bench_name output_dir s
  = (Done 0, log_more s [Print (bench_name +:+ ": no fans")]).
Proof.
  intros Hbench Hfans. unfold graph_fans, bench. rewrite Hbench.
  unfold bind at 1. unfold ret at 1. rewrite Hfans. reflexivity.
Qed.

(** C8: for a bench [b] of a trace, the fan dispatcher returns 0 and prints
    the "no fans" notice (and nothing else) when the bench has no fan
    component; when it has [k > 0] fans, it issues the two combined
    fan-speed requests (thermal, then power) followed by one error-bar
    request per fan, and returns [2 + k] with a renderer that accounts one
    graph per request. *)
Theorem graph_fans_count {Hunit : UnitRenderer R} trace bench_name output_dir b s :
  benches trace !! bench_name = Some b →
  (get_components b "fan" = [] →
   graph_fans trace bench_name output_dir s
   = (Done 0, log_more s [Print (bench_name +:+ ": no fans")]))
  ∧ (0 < length (get_components b "fan") →
     graph_fans trace bench_name output_dir s
     = (Done (2 + length (get_components b "fan")),
        log_more s (fan_requests b (get_components b "fan")))
     ∧ length (fan_requests b (get_components b "fan"))
       = 2 + length (get_components b "fan")).
Proof.
  intros Hbench. split.
  - by apply graph_fans_no_fans.
  - intros Hk. split.
    + rewrite (graph_fans_requests _ _ _ b); [|done|].
      2: { intros Hnil. rewrite Hnil in Hk. simpl in Hk. lia. }
      rewrite !generic_graph_one. do 2 f_equal.
      rewrite (map_ext _ (λ _, 1)) by (intros; apply yerr_graph_one).
      rewrite sum_list_ones. lia.
    + unfold fan_requests. simpl. by rewrite length_map.
Qed.

(** What [graph_cpu] does, whatever the renderer accounts for each request. *)
Lemma graph_cpu_requests trace bench_name output_dir b s :
  benches trace !! bench_name = Some b →
  graph_cpu trace bench_name output_dir s
  = (Done (sum_list (map (λ '(metric, title, second_axis),
                            generic_graph_count (st_args s) output_dir b metric
                                                title second_axis)
                         cpu_request_list)),
     log_more s (cpu_requests b)).
Proof.
  intros Hbench. unfold graph_cpu, bench. rewrite Hbench.
  unfold bind at 1. unfold ret at 1.
  unfold log_more, cpu_requests. simpl. unfold bind, ret. simpl.
  rewrite <- !app_assoc. simpl. do 2 f_equal. lia.
Qed.

(** C9: for a bench [b] of a trace, the CPU dispatcher issues exactly the
    nine requests of the three metric families (core power, package power,
    core frequency) times the three secondary-axis variants (none, thermal,
    power), whatever components [b] has, and returns 9 with a renderer that
    accounts one graph per request. *)
Theorem graph_cpu_count {Hunit : UnitRenderer R} trace bench_name output_dir b s :
  benches trace !! bench_name = Some b →
  graph_cpu trace bench_name output_dir s = (Done 9, log_more s (cpu_requests b))
  ∧ length (cpu_requests b) = 9.
Proof.
  intros Hbench. split; [|reflexivity].
  rewrite (graph_cpu_requests _ _ _ b) by done.
  simpl. by rewrite !generic_graph_one.
Qed.

End dispatch.

Lemma unit_renderer_unit : UnitRenderer unit_renderer.
Proof. by split. Qed.

Lemma graph_fans_count_witness :
  run (graph_fans (R := unit_renderer) sysA "avx_2" "out") (sample_args [sysA])
    = (Done 0, {| st_args := sample_args [sysA]; st_log := [Print "avx_2: no fans"] |})
  ∧ run (graph_fans (R := unit_renderer) sysA "avx_1" "out") (sample_args [sysA])
    = (Done 4, {| st_args := sample_args [sysA];
                  st_log := [GenericGraph avx_1 "fan" "Fans speed" (Some THERMAL);
                             GenericGraph avx_1 "fan" "Fans speed" (Some POWER);
                             YerrGraph avx_1 "fan" "fan1";
                             YerrGraph avx_1 "fan" "fan2"] |}).
Proof.
  split.
  - apply (graph_fans_count (R := unit_renderer) (Hunit := unit_renderer_unit)
             sysA "avx_2" "out" avx_2); reflexivity.
  - apply (graph_fans_count (R := unit_renderer) (Hunit := unit_renderer_unit)
             sysA "avx_1" "out" avx_1); [reflexivity|]. simpl. lia.
Defined.

Lemma graph_cpu_count_witness :
  run (graph_cpu (R := unit_renderer) sysA "avx_2" "out") (sample_args [sysA])
    = (Done 9, log_more {| st_args := sample_args [sysA]; st_log := [] |}
                        (cpu_requests avx_2)).
Proof.
  apply (graph_cpu_count (R := unit_renderer) (Hunit := unit_renderer_unit)
           sysA "avx_2" "out" avx_2).
  reflexivity.
Defined.

(** * The job identity aggregator *)

Lemma first_occurrences_filter (P : string → Prop) `{!∀ x, Decision (P x)} l :
  filter P (first_occurrences l) = first_occurrences (filter P l).
Proof.
  induction l as [|x l IH]; [done|]. simpl.
  rewrite !filter_cons. destruct (decide (P x)) as [HP|HP]; simpl.
  - f_equal. rewrite <- IH, !list_filter_filter.
    apply list_filter_iff. intros y. tauto.
  - rewrite <- IH. apply list_filter_filter_l. by intros y Hy ->.
Qed.

Lemma first_occurrences_elem_of l x : x ∈ first_occurrences l ↔ x ∈ l.
Proof.
  induction l as [|y l IH]; [done|]. simpl.
  rewrite !elem_of_cons, list_elem_of_filter, IH.
  destruct (decide (x = y)); intuition congruence.
Qed.

Lemma first_occurrences_NoDup l : NoDup (first_occurrences l).
Proof.
  induction l as [|x l IH]; simpl; [constructor|].
  apply NoDup_cons. split.
  - rewrite list_elem_of_filter. by intros [Hx _].
  - by apply NoDup_filter.
Qed.

(** The order of [l] is kept. *)
Lemma first_occurrences_sublist l : first_occurrences l `sublist_of` l.
Proof.
  induction l as [|x l IH]; simpl; [done|].
  apply sublist_skip. etrans; [apply sublist_filter|done].
Qed.

Lemma filter_not_elem_of_nil (l : list string) : filter (λ x, x ∉ []) l = l.
Proof.
  induction l as [|x l IH]; [done|].
  rewrite filter_cons_True by apply not_elem_of_nil. by rewrite IH.
Qed.

(** The pure content of the aggregation loop: [jobs] after the job names
    [l] were offered to it one by one. *)
Lemma aggregate_first_occurrences (l jobs : list string) :
  foldl (λ jobs job, if bool_decide (job ∈ jobs) then jobs else jobs ++ [job]) jobs l
  = jobs ++ first_occurrences (filter (λ job, job ∉ jobs) l).
Proof.
  revert jobs. induction l as [|x l IH]; intros jobs; simpl.
  - by rewrite app_nil_r.
  - rewrite IH, filter_cons. case_bool_decide as Hx.
    + by rewrite decide_False by (by intros Hnot).
    + rewrite decide_True by done. simpl.
      rewrite first_occurrences_filter, list_filter_filter, <- app_assoc.
      simpl. do 3 f_equal. apply list_filter_iff. intros y.
      rewrite elem_of_app, list_elem_of_singleton. intuition congruence.
Qed.

Lemma sorted_Permutation l : sorted l ≡ₚ l.
Proof. apply merge_sort_Permutation. Qed.

Lemma sorted_Sorted l : Sorted String.le (sorted l).
Proof. apply (Sorted_merge_sort String.le). Qed.

(** Every name of [bench_list] resolves to a bench. *)
Lemma bench_list_lookup t bench_name :
  bench_name ∈ sorted (bench_list t) → is_Some (benches t !! bench_name).
Proof.
  rewrite sorted_Permutation. unfold bench_list.
  rewrite elem_of_elements. apply elem_of_dom.
Qed.

(** One iteration of the aggregation loop on a bench name that resolves. *)
Lemma collect_job_spec args reference rest jobs bench_name b s :
  traces args = reference :: rest →
  benches reference !! bench_name = Some b →
  collect_job args jobs bench_name s
  = (Done (if bool_decide (job_name b ∈ jobs) then jobs else jobs ++ [job_name b]), s).
Proof.
  intros Hargs Hb. unfold collect_job. rewrite Hargs. simpl.
  unfold bind at 1. unfold ret at 1. unfold bench. rewrite Hb.
  unfold bind, ret. by case_bool_decide.
Qed.

(** The aggregation loop of [plot_graphs] over bench names that all
    resolve: it returns, touches nothing, and collects what the pure fold
    collects from the job names. *)
Lemma aggregate_loop args reference rest names jobs s :
  traces args = reference :: rest →
  Forall (λ bench_name, is_Some (benches reference !! bench_name)) names →
  foreach names jobs (collect_job args) s
  = (Done (foldl (λ jobs job, if bool_decide (job ∈ jobs) then jobs else jobs ++ [job])
                 jobs
                 (omap (λ bench_name, job_name <$> benches reference !! bench_name) names)),
     s).
Proof.
  intros Hargs. revert jobs.
  induction names as [|name names IH]; intros jobs Hnames; [done|].
  apply Forall_cons in Hnames as [[b Hb] Hnames]. simpl.
  erewrite bind_done by (by eapply collect_job_spec).
  rewrite Hb. simpl. by apply IH.
Qed.

(** [bench_job_names] has the job name of every bench, in the order of the
    sorted bench names. *)
Lemma bench_job_names_resolved t :
  Forall2 (λ bench_name job, ∃ b, benches t !! bench_name = Some b ∧ job_name b = job)
          (sorted (bench_list t)) (bench_job_names t).
Proof.
  unfold bench_job_names.
  assert (Forall (λ bench_name, is_Some (benches t !! bench_name))
                 (sorted (bench_list t))) as Hall.
  { apply Forall_forall. intros name. apply bench_list_lookup. }
  induction Hall as [|name names [b Hb] _ IH]; simpl; [constructor|].
  rewrite Hb. simpl. constructor; [by exists b|done].
Qed.

Section plot.
Context `{R : Renderer}.

Lemma scaling_graph_spec output_dir job traces_name s :
  scaling_graph output_dir job traces_name s
  = (Done (scaling_graph_count (st_args s) output_dir job traces_name),
     log_more s [ScalingGraph job traces_name]).
Proof. reflexivity. Qed.

Lemma individual_graph_spec output_dir job traces_name s :
  individual_graph output_dir job traces_name s
  = (Done (individual_graph_count (st_args s) output_dir job traces_name),
     log_more s [IndividualGraph job traces_name]).
Proof. reflexivity. Qed.

Lemma concat_map_singleton {A B} (f : A → B) (l : list A) :
  concat (map (λ x, [f x]) l) = map f l.
Proof. induction l; simpl; congruence. Qed.

(** [plot_graphs] on a non-empty Comparison Set: the job identities are the
    first occurrences of the reference's job names, and both stages run over
    them. *)
Lemma plot_graphs_spec output_dir reference rest s :
  traces (st_args s) = reference :: rest →
  plot_graphs output_dir s
  = (Done (0
           + sum_list (map (λ job, scaling_graph_count (st_args s) output_dir job
                                     (map get_name (traces (st_args s))))
                           (first_occurrences (bench_job_names reference)))
           + sum_list (map (λ job, individual_graph_count (st_args s) output_dir job
                                     (map get_name (traces (st_args s))))
                           (first_occurrences (bench_job_names reference)))),
     log_more s (plot_requests (first_occurrences (bench_job_names reference))
                               (map get_name (traces (st_args s))))).
Proof.
  intros Hargs. unfold plot_graphs, get_args. unfold bind at 1.
  rewrite Hargs at 1. unfold item0. unfold bind at 1. unfold ret at 1.
  erewrite bind_done.
  2: { eapply aggregate_loop; [done|].
       apply Forall_forall. intros name. apply bench_list_lookup. }
  rewrite aggregate_first_occurrences. simpl app.
  rewrite filter_not_elem_of_nil.
  fold (bench_job_names reference).
  set (jobs := first_occurrences (bench_job_names reference)).
  set (traces_name := map get_name (traces (st_args s))).
  unfold print. unfold bind at 1. unfold emit at 1.
  erewrite bind_done.
  2: { apply (foreach_count (λ job, scaling_graph output_dir job traces_name)
                (λ args job, scaling_graph_count args output_dir job traces_name)
                (λ job, [ScalingGraph job traces_name])).
       intros; apply scaling_graph_spec. }
  unfold bind at 1. unfold emit at 1.
  erewrite (foreach_count (λ job, individual_graph output_dir job traces_name)
                (λ args job, individual_graph_count args output_dir job traces_name)
                (λ job, [IndividualGraph job traces_name]))
    by (intros; apply individual_graph_spec).
  rewrite !concat_map_singleton. unfold log_more, plot_requests. simpl.
  by rewrite <- !app_assoc.
Qed.

End plot.

(** C10: the job identities of [plot_graphs].  The reference trace's bench
    names are traversed in sorted order (the traversed list is ordered and a
    rearrangement of [bench_list]), each name resolves to a bench whose job
    name is taken, and the identity list is the list of first occurrences of
    those job names: no duplicates, the same names, their order kept.  The
    job names A, B, A, C give the identities A, B, C.  The scaling stage and
    the individual stage are both asked once per entry of that same list,
    in its order. *)
Theorem plot_graphs_job_identities `{R : Renderer} output_dir reference rest s :
  traces (st_args s) = reference :: rest →
  Sorted String.le (sorted (bench_list reference))
  ∧ sorted (bench_list reference) ≡ₚ bench_list reference
  ∧ Forall2 (λ bench_name job,
               ∃ b, benches reference !! bench_name = Some b ∧ job_name b = job)
            (sorted (bench_list reference)) (bench_job_names reference)
  ∧ NoDup (first_occurrences (bench_job_names reference))
  ∧ (∀ job, job ∈ first_occurrences (bench_job_names reference)
            ↔ job ∈ bench_job_names reference)
  ∧ first_occurrences (bench_job_names reference) `sublist_of` bench_job_names reference
  ∧ (∀ A B C, A ≠ B → A ≠ C → B ≠ C →
       bench_job_names reference = [A; B; A; C] →
       first_occurrences (bench_job_names reference) = [A; B; C])
  ∧ ∃ rendered_graphs,
      plot_graphs output_dir s
      = (Done rendered_graphs,
         log_more s (plot_requests (first_occurrences (bench_job_names reference))
                                   (map get_name (traces (st_args s))))).
Proof.
  intros Hargs. split_and!.
  - apply sorted_Sorted.
  - apply sorted_Permutation.
  - apply bench_job_names_resolved.
  - apply first_occurrences_NoDup.
  - intros job. apply first_occurrences_elem_of.
  - apply first_occurrences_sublist.
  - intros A B C HAB HAC HBC ->. simpl.
    repeat first
      [ rewrite filter_cons_True by congruence
      | rewrite filter_cons_False by (intros Hne; by apply Hne)
      | rewrite filter_nil ].
    reflexivity.
  - eexists. by eapply plot_graphs_spec.
Qed.

Lemma plot_graphs_job_identities_witness :
  first_occurrences (bench_job_names ramp) = ["A"; "B"; "C"]
  ∧ ∃ rendered_graphs,
      run (plot_graphs (R := unit_renderer) "out") (sample_args [ramp; sysA])
      = (Done rendered_graphs,
         log_more {| st_args := sample_args [ramp; sysA]; st_log := [] |}
                  (plot_requests (first_occurrences (bench_job_names ramp))
                                 ["ramp"; "sysA"])).
Proof.
  pose proof (plot_graphs_job_identities (R := unit_renderer) "out" ramp [sysA]
                {| st_args := sample_args [ramp; sysA]; st_log := [] |} eq_refl)
    as (_ & _ & _ & _ & _ & _ & Habac & Hrun).
  split; [|exact Hrun].
  apply Habac; [discriminate..|]. vm_compute. reflexivity.
Defined.

(** * The enclosure context resolver *)

Lemma count_occ_true_all (l : list bool) :
  count_occ Bool.bool_dec l true = length l ↔ Forall (λ b, b = true) l.
Proof.
  induction l as [|b l IH]; simpl.
  - split; [constructor|done].
  - pose proof (count_occ_bound Bool.bool_dec true l) as Hbound.
    destruct (Bool.bool_dec b true) as [->|Hb].
    + rewrite Forall_cons. split.
      * intros Hcount. split; [done|]. apply IH. lia.
      * intros [_ Hall]. f_equal. by apply IH.
    + split; [lia|]. intros Hall. by apply Forall_cons in Hall as [? _].
Qed.



(** * The validity gate *)

Lemma missing_metric_message_nonempty metric t : missing_metric_message metric t ≠ "".
Proof. unfold missing_metric_message. simpl. discriminate. Qed.

Lemma missing_metric_message_not_chassis metric t :
  missing_metric_message metric t ≠ chassis_not_unique_message.
Proof.
  unfold missing_metric_message, chassis_not_unique_message. simpl. discriminate.
Qed.

Lemma missing_metric_None t : missing_metric t = None ↔ exposes_metrics t.
Proof.
  unfold missing_metric, exposes_metrics. simpl.
  destruct (get_metric_mean t (first_bench t) "chassis") as [c|] eqn:Hc;
    destruct (get_metric_mean t (first_bench t) "enclosure") as [e|] eqn:He;
    simpl; split; try done; intros [[? ?] [? ?]]; done.
Qed.

(** A trace that lacks a metric: the one reported is [chassis] if it is
    missing, [enclosure] otherwise. *)
Lemma missing_metric_Some t :
  ¬ exposes_metrics t →
  ∃ metric, missing_metric t = Some metric ∧ metric ∈ ["chassis"; "enclosure"]
            ∧ get_metric_mean t (first_bench t) metric = None
            ∧ (metric = "enclosure"
               → is_Some (get_metric_mean t (first_bench t) "chassis")).
Proof.
  unfold missing_metric, exposes_metrics. simpl. intros Hnot.
  destruct (get_metric_mean t (first_bench t) "chassis") as [c|] eqn:Hc; simpl.
  - destruct (get_metric_mean t (first_bench t) "enclosure") as [e|] eqn:He; simpl.
    + destruct Hnot. by split.
    + exists "enclosure". split_and!; [done| |done|done]. apply list_elem_of_In. simpl. auto.
  - exists "chassis". split_and!; [done| |done|done]. apply list_elem_of_In. simpl. auto.
Qed.

Lemma check_metrics_empty ts : check_metrics ts = "" ↔ Forall exposes_metrics ts.
Proof.
  induction ts as [|t ts IH]; simpl.
  - split; [constructor|done].
  - rewrite Forall_cons, <- IH, <- missing_metric_None.
    destruct (missing_metric t) as [metric|]; [|tauto].
    split; [|by intros [? _]].
    intros Habs. by apply missing_metric_message_nonempty in Habs.
Qed.

(** The notice names the first trace, in input order, that lacks a metric. *)
Lemma check_metrics_first_missing pre t post metric :
  Forall exposes_metrics pre →
  missing_metric t = Some metric →
  check_metrics (pre ++ t :: post) = missing_metric_message metric t.
Proof.
  intros Hpre Ht. induction Hpre as [|u pre Hu _ IH]; simpl.
  - by rewrite Ht.
  - apply missing_metric_None in Hu. by rewrite Hu.
Qed.

Lemma check_metrics_not_chassis ts : check_metrics ts ≠ chassis_not_unique_message.
Proof.
  induction ts as [|t ts IH]; simpl; [discriminate|].
  destruct (missing_metric t); [apply missing_metric_message_not_chassis|done].
Qed.

Lemma valid_traces_check_metrics args : valid_traces args = check_metrics (traces args).
Proof. unfold valid_traces. by rewrite length_map, bool_decide_eq_true_2. Qed.

Section gate.
Context `{R : Renderer}.

Lemma graph_enclosure_spec bench_name output_dir s :
  graph_enclosure bench_name output_dir s
  = (Done (graph_enclosure_count (st_args s) bench_name output_dir),
     log_more s [GraphEnclosure bench_name]).
Proof. reflexivity. Qed.

(** The gate is not evaluated when the same-enclosure preference is off. *)
Lemma enclosure_graphs_off output_dir rendered_graphs s :
  same_enclosure (st_args s) = false →
  enclosure_graphs output_dir rendered_graphs s = (Done rendered_graphs, s).
Proof.
  intros Hoff. unfold enclosure_graphs, get_args. unfold bind at 1. by rewrite Hoff.
Qed.

(** The gate passes: one environment-comparison request per bench name of
    the reference trace, sorted. *)
Lemma enclosure_graphs_pass output_dir rendered_graphs reference rest s :
  traces (st_args s) = reference :: rest →
  same_enclosure (st_args s) = true →
  Forall exposes_metrics (traces (st_args s)) →
  enclosure_graphs output_dir rendered_graphs s
  = (Done (rendered_graphs
           + sum_list (map (λ bench_name,
                              graph_enclosure_count (st_args s) bench_name output_dir)
                           (sorted (bench_list reference)))),
     log_more s (map GraphEnclosure (sorted (bench_list reference)))).
Proof.
  intros Hargs Hon Hall. unfold enclosure_graphs, get_args. unfold bind at 1.
  rewrite Hon. rewrite bool_decide_eq_true_2.
  2: { rewrite valid_traces_check_metrics. by apply check_metrics_empty. }
  rewrite Hargs at 1. unfold item0. unfold bind at 1. unfold ret at 1.
  rewrite (foreach_count (λ bench_name, graph_enclosure bench_name output_dir)
             (λ args bench_name, graph_enclosure_count args bench_name output_dir)
             (λ bench_name, [GraphEnclosure bench_name]))
    by (intros; apply graph_enclosure_spec).
  by rewrite concat_map_singleton.
Qed.

(** The gate fails: the notice is printed and no request is issued. *)
Lemma enclosure_graphs_skip output_dir rendered_graphs s :
  same_enclosure (st_args s) = true →
  ¬ Forall exposes_metrics (traces (st_args s)) →
  enclosure_graphs output_dir rendered_graphs s
  = (Done rendered_graphs, log_more s [Print (valid_traces (st_args s))]).
Proof.
  intros Hon Hmiss. unfold enclosure_graphs, get_args. unfold bind at 1.
  rewrite Hon. rewrite bool_decide_eq_false_2; [done|].
  rewrite valid_traces_check_metrics. by rewrite check_metrics_empty.
Qed.

(** C6: in [valid_traces] the list of chassis serials has one entry per
    trace, so the count check holds on every Comparison Set and the function
    is its metric loop: it never returns the "chassis are not unique"
    notice, and it returns the empty string exactly when every trace exposes
    both metrics on its first bench.  With the same-enclosure preference
    active, the environment-comparison graphs are requested when all traces
    expose the metrics and skipped, with a notice other than the chassis
    one, when some trace does not. *)
Theorem valid_traces_chassis_branch_unreachable args :
  length (map get_chassis_serial (traces args)) = length (traces args)
  ∧ valid_traces args = check_metrics (traces args)
  ∧ valid_traces args ≠ chassis_not_unique_message
  ∧ (valid_traces args = "" ↔ Forall exposes_metrics (traces args))
  ∧ (∀ output_dir rendered_graphs reference rest s,
       st_args s = args →
       traces args = reference :: rest →
       same_enclosure args = true →
       (Forall exposes_metrics (traces args) →
        ∃ n, enclosure_graphs output_dir rendered_graphs s
             = (Done n, log_more s (map GraphEnclosure (sorted (bench_list reference)))))
       ∧ (¬ Forall exposes_metrics (traces args) →
          enclosure_graphs output_dir rendered_graphs s
          = (Done rendered_graphs, log_more s [Print (valid_traces args)])
          ∧ valid_traces args ≠ chassis_not_unique_message)).
Proof.
  split_and!.
  - apply length_map.
  - apply valid_traces_check_metrics.
  - rewrite valid_traces_check_metrics. apply check_metrics_not_chassis.
  - rewrite valid_traces_check_metrics. apply check_metrics_empty.
  - intros output_dir rendered_graphs reference rest s <- Hargs Hon. split.
    + intros Hall. eexists. by eapply enclosure_graphs_pass.
    + intros Hmiss. split; [by apply enclosure_graphs_skip|].
      rewrite valid_traces_check_metrics. apply check_metrics_not_chassis.
Qed.

End gate.

Lemma avx_1_exposes_metrics t : first_bench t = avx_1 → exposes_metrics t.
Proof. unfold exposes_metrics. intros ->. split; by eexists. Qed.

Lemma sysD_lacks_metrics ts : ¬ Forall exposes_metrics (ts ++ [sysD]).
Proof.
  intros Hall. apply Forall_app in Hall as [_ Hall].
  apply Forall_singleton in Hall as [_ [mean Hmean]]. by vm_compute in Hmean.
Qed.

Lemma valid_traces_chassis_branch_unreachable_witness :
  (∃ n, run (enclosure_graphs (R := unit_renderer) "out" 0)
            (set_same_enclosure true (sample_args [sysA; sysB]))
        = (Done n, {| st_args := set_same_enclosure true (sample_args [sysA; sysB]);
                      st_log := [GraphEnclosure "avx_1"; GraphEnclosure "avx_2"] |}))
  ∧ run (enclosure_graphs (R := unit_renderer) "out" 0)
        (set_same_enclosure true (sample_args [sysA; sysD]))
    = (Done 0, {| st_args := set_same_enclosure true (sample_args [sysA; sysD]);
                  st_log := [Print "environment: missing 'enclosure' monitoric metric in d.json, disabling same-enclosure print"] |}).
Proof.
  split.
  - apply (proj2 (proj2 (proj2 (proj2 (valid_traces_chassis_branch_unreachable
             (R := unit_renderer) (set_same_enclosure true (sample_args [sysA; sysB]))))))
           "out" 0 sysA [sysB]
           {| st_args := set_same_enclosure true (sample_args [sysA; sysB]); st_log := [] |}
           eq_refl eq_refl eq_refl).
    repeat (constructor; [by apply avx_1_exposes_metrics|]). constructor.
  - apply (proj2 (proj2 (proj2 (proj2 (valid_traces_chassis_branch_unreachable
             (R := unit_renderer) (set_same_enclosure true (sample_args [sysA; sysD]))))))
           "out" 0 sysA [sysD]
           {| st_args := set_same_enclosure true (sample_args [sysA; sysD]); st_log := [] |}
           eq_refl eq_refl eq_refl).
    apply (sysD_lacks_metrics [sysA]).
Defined.

(** * The environment stage *)

Lemma emits_ret {A} (a : A) : emits (ret a) [].
Proof. intros s. exists a. unfold ret. by rewrite log_more_nil. Qed.

Lemma emits_emit e : emits (emit e) [e].
Proof. intros s. by exists (). Qed.

Lemma emits_bind {A B} (m : M A) (k : A → M B) evs1 evs2 :
  emits m evs1 → (∀ a, emits (k a) evs2) → emits (bind m k) (evs1 ++ evs2).
Proof.
  intros Hm Hk s. destruct (Hm s) as [a Ha].
  destruct (Hk a (log_more s evs1)) as [b Hb].
  exists b. unfold bind. by rewrite Ha, Hb, log_more_app.
Qed.

Lemma emits_foreach {A S} (l : list A) (body : S → A → M S) (evs : A → list event) :
  (∀ x, x ∈ l → ∀ acc, emits (body acc x) (evs x)) →
  ∀ acc, emits (foreach l acc body) (concat (map evs l)).
Proof.
  induction l as [|x l IH]; intros Hbody acc; simpl.
  - apply emits_ret.
  - apply emits_bind.
    + apply Hbody. apply list_elem_of_here.
    + intros acc'. apply IH. intros y Hy. apply Hbody. by apply list_elem_of_further.
Qed.

Section environment.
Context `{R : Renderer}.

Lemma emits_graph_fans trace bench_name output_dir b :
  benches trace !! bench_name = Some b →
  emits (graph_fans trace bench_name output_dir) (fan_events bench_name b).
Proof.
  intros Hb s. unfold fan_events.
  destruct (get_components b "fan") as [|fan fans] eqn:Hfans.
  - eexists. by apply (graph_fans_no_fans _ _ _ b).
  - eexists. rewrite <- Hfans. apply (graph_fans_requests _ _ _ b); [done|].
    by rewrite Hfans.
Qed.

Lemma emits_graph_cpu trace bench_name output_dir b :
  benches trace !! bench_name = Some b →
  emits (graph_cpu trace bench_name output_dir) (cpu_requests b).
Proof. intros Hb s. eexists. by apply (graph_cpu_requests _ _ _ b). Qed.

Lemma emits_graph_thermal trace bench_name output_dir b :
  benches trace !! bench_name = Some b →
  emits (graph_thermal trace bench_name output_dir)
        [GenericGraph b "temp" "Temperatures" None].
Proof.
  intros Hb s. unfold graph_thermal, bench. rewrite Hb. eexists. reflexivity.
Qed.

Lemma emits_eq {A} (m : M A) evs evs' : emits m evs → evs = evs' → emits m evs'.
Proof. by intros Hm <-. Qed.

(** The three dispatchers on one bench. *)
Lemma emits_bench_dispatch trace bench_name output_dir b (rendered_graphs : nat) :
  benches trace !! bench_name = Some b →
  emits (n1 <- graph_fans trace bench_name output_dir ;;
         n2 <- graph_cpu trace bench_name output_dir ;;
         n3 <- graph_thermal trace bench_name output_dir ;;
         ret (rendered_graphs + n1 + n2 + n3))
        (bench_events bench_name b).
Proof.
  intros Hb. unfold bench_events.
  apply emits_bind; [by apply emits_graph_fans|]. intros n1.
  apply emits_bind; [by apply emits_graph_cpu|]. intros n2.
  eapply emits_eq; [|apply app_nil_r].
  apply emits_bind; [by apply emits_graph_thermal|]. intros n3.
  apply emits_ret.
Qed.

(** The per-trace part of the environment stage always returns and asks
    for the fan, CPU and thermal graphs of every bench of every trace. *)
Lemma per_trace_graphs_spec output_dir rendered_graphs s :
  ∃ n, per_trace_graphs output_dir rendered_graphs s
       = (Done n, log_more s (per_trace_events output_dir (traces (st_args s)))).
Proof.
  unfold per_trace_graphs, get_args. unfold bind at 1.
  apply (emits_foreach (traces (st_args s)) _ (trace_events output_dir)).
  intros t _ acc.
  apply (emits_bind _ _ [Mkdir (joinpath output_dir (get_name t))]);
    [apply emits_emit|]. intros _.
  apply (emits_bind _ _ [Print (rendering_jobs_message (length (bench_list t)) t)]);
    [apply emits_emit|]. intros _.
  apply (emits_foreach (sorted (bench_list t)) _
           (λ bench_name, match benches t !! bench_name with
                          | Some b => bench_events bench_name b
                          | None => []
                          end)).
  intros bench_name Hname acc'.
  destruct (bench_list_lookup _ _ Hname) as [b Hb]. rewrite Hb.
  by apply emits_bench_dispatch.
Qed.

Lemma per_trace_events_no_enclosure output_dir ts :
  Forall (λ e, is_graph_enclosure e = false) (per_trace_events output_dir ts).
Proof.
  unfold per_trace_events. apply Forall_concat, Forall_map, Forall_forall.
  intros t _. unfold trace_events. apply Forall_app. split; [by repeat constructor|].
  apply Forall_concat, Forall_map, Forall_forall. intros bench_name _.
  destruct (benches t !! bench_name) as [b|]; [|constructor].
  unfold bench_events, fan_events, fan_requests.
  rewrite !Forall_app. split_and!; [|by repeat constructor..].
  destruct (get_components b "fan") as [|fan fans]; [by repeat constructor|].
  apply Forall_app. split; [by repeat constructor|].
  apply Forall_map, Forall_forall. by intros.
Qed.

End environment.

Lemma set_same_enclosure_id args :
  same_enclosure args = true → set_same_enclosure true args = args.
Proof. destruct args. simpl. by intros ->. Qed.

(** The auto-detection as a whole: it always returns on a non-empty
    Comparison Set, and fires exactly when the set shares an enclosure. *)
Lemma detect_same_enclosure_spec s reference rest :
  traces (st_args s) = reference :: rest →
  detect_same_enclosure s
  = (Done (),
     {| st_args := match shared_enclosure (traces (st_args s)) with
                   | Some _ => set_same_enclosure true (st_args s)
                   | None => st_args s
                   end;
        st_log := st_log s ++ detection_events (traces (st_args s)) |}).
Proof.
  intros Hargs. unfold detect_same_enclosure, get_args, detection_events, shared_enclosure.
  unfold bind at 1. rewrite Hargs. unfold item0. unfold bind at 1. unfold ret at 1.
  destruct (get_enclosure_serial reference) as [serial|].
  2: { destruct s. simpl. by rewrite app_nil_r. }
  assert (count_occ Bool.bool_dec
            (map (λ t, bool_decide (get_enclosure_serial t = Some serial))
                 (reference :: rest)) true = length (reference :: rest)
          ↔ Forall (λ t, get_enclosure_serial t = Some serial) (reference :: rest))
    as Hcount.
  { rewrite <- (length_map (λ t, bool_decide (get_enclosure_serial t = Some serial))).
    rewrite count_occ_true_all, Forall_map. apply Forall_iff. intros t. simpl.
    apply bool_decide_eq_true. }
  case_bool_decide as Hserial.
  - case_bool_decide as Hall.
    + rewrite decide_True; [done|]. split; [done|]. by apply Hcount.
    + rewrite decide_False.
      * destruct s. simpl. by rewrite app_nil_r.
      * intros [_ Hsame]. by apply Hall, Hcount.
  - rewrite decide_False by (by intros [? _]).
    destruct s. simpl. by rewrite app_nil_r.
Qed.

(** A list on which [P] does not hold throughout has a first offender. *)
Lemma first_offender {A} (P : A → Prop) `{!∀ x, Decision (P x)} (l : list A) :
  ¬ Forall P l → ∃ pre x post, l = pre ++ x :: post ∧ Forall P pre ∧ ¬ P x.
Proof.
  induction l as [|x l IH]; intros Hnot.
  - destruct Hnot. constructor.
  - destruct (decide (P x)) as [Hx|Hx].
    + destruct IH as (pre & y & post & -> & Hpre & Hy).
      { intros Hl. apply Hnot. by constructor. }
      exists (x :: pre), y, post. split_and!; [done| |done]. by constructor.
    + exists [], x, l. split_and!; [done|constructor|done].
Qed.

Section pipeline.
Context `{R : Renderer}.

(** The user disabled the environment graphs: the stage only says so. *)
Lemma graph_environment_disabled output_dir s :
  no_env (st_args s) = false →
  graph_environment output_dir s
  = (Done 0, log_more s [Print "environment: disabled by user"]).
Proof.
  intros Hoff. unfold graph_environment, get_args. unfold bind at 1. by rewrite Hoff.
Qed.

(** With the same-enclosure preference active, by the user or by the
    auto-detection, the state after the detection has the flag set. *)
Lemma detect_same_enclosure_active s reference rest :
  traces (st_args s) = reference :: rest →
  same_enclosure (st_args s) = true ∨ is_Some (shared_enclosure (traces (st_args s))) →
  detect_same_enclosure s
  = (Done (),
     {| st_args := set_same_enclosure true (st_args s);
        st_log := st_log s ++ detection_events (traces (st_args s)) |}).
Proof.
  intros Hargs Hactive. rewrite (detect_same_enclosure_spec _ _ _ Hargs).
  destruct (shared_enclosure (traces (st_args s))) as [serial|]; [done|].
  destruct Hactive as [Huser|[? ?]]; [|done]. by rewrite set_same_enclosure_id.
Qed.

(** The environment stage when the gate fails: no environment-comparison
    request, the notice, then the per-trace dispatch as usual. *)
Lemma graph_environment_gate_fails output_dir s reference rest :
  no_env (st_args s) = true →
  traces (st_args s) = reference :: rest →
  same_enclosure (st_args s) = true ∨ is_Some (shared_enclosure (traces (st_args s))) →
  ¬ Forall exposes_metrics (traces (st_args s)) →
  ∃ n, graph_environment output_dir s
       = (Done n,
          {| st_args := set_same_enclosure true (st_args s);
             st_log := st_log s
               ++ detection_events (traces (st_args s))
               ++ [Print (check_metrics (traces (st_args s)))]
               ++ per_trace_events output_dir (traces (st_args s)) |}).
Proof.
  intros Hon Hargs Hactive Hmiss.
  unfold graph_environment, get_args. unfold bind at 1. rewrite Hon.
  change (negb true) with false. cbv iota.
  erewrite bind_done by (by eapply detect_same_enclosure_active).
  erewrite bind_done.
  2: { apply enclosure_graphs_skip; [done|]. exact Hmiss. }
  rewrite valid_traces_check_metrics.
  match goal with |- ∃ n, per_trace_graphs _ _ ?s1 = _ =>
    destruct (per_trace_graphs_spec output_dir 0 s1) as [n Hn] end.
  exists n. rewrite Hn. unfold log_more. simpl. by rewrite <- !app_assoc.
Qed.

(** The orchestrator once the environment stage has returned: the
    validator, the job aggregation and the summary line run from the state
    the stage has left. *)
Lemma render_traces_after_environment s n_env s_env :
  graph_environment (Path (outdir (st_args s))) (log_more s [InitMatplotlib; Mkdir (Path (outdir (st_args s)))])
    = (Done n_env, s_env) →
  render_traces s
  = (compare_traces ;;;
     n <- plot_graphs (Path (outdir (st_args s))) ;;
     print (graphs_found_message (0 + n_env + n) (Path (outdir (st_args s))))) s_env.
Proof.
  intros Henv.
  unfold render_traces. unfold bind at 1. unfold emit at 1.
  unfold get_args. unfold bind at 1. unfold bind at 1. unfold emit at 1.
  simpl st_args. simpl st_log. unfold log_more in Henv. simpl in Henv.
  rewrite <- app_assoc. simpl app.
  by erewrite bind_done by exact Henv.
Qed.

(** The orchestrator once the environment stage has returned and the
    validator has accepted the Comparison Set. *)
Lemma render_traces_completes s reference rest n_env s_env :
  traces (st_args s) = reference :: rest →
  graph_environment (Path (outdir (st_args s))) (log_more s [InitMatplotlib; Mkdir (Path (outdir (st_args s)))])
    = (Done n_env, s_env) →
  traces (st_args s_env) = traces (st_args s) →
  outdir (st_args s_env) = outdir (st_args s) →
  Forall (compatible_with reference) (traces (st_args s)) →
  NoDup (map get_name (traces (st_args s))) →
  ∃ total,
    render_traces s
    = (Done (),
       log_more s_env
         (plot_requests (first_occurrences (bench_job_names reference))
                        (map get_name (traces (st_args s)))
          ++ [Print (graphs_found_message total (Path (outdir (st_args s))))])).
Proof.
  intros Hargs Henv Htraces Houtdir Hcompat Hnodup.
  unfold render_traces. unfold bind at 1. unfold emit at 1.
  unfold get_args. unfold bind at 1. unfold bind at 1. unfold emit at 1.
  simpl st_args. simpl st_log. unfold log_more in Henv. simpl in Henv.
  rewrite <- app_assoc. simpl app.
  erewrite bind_done by exact Henv.
  erewrite bind_done.
  2: { eapply validator_accepts_compatible; rewrite Htraces; done. }
  erewrite bind_done.
  2: { eapply plot_graphs_spec. by rewrite Htraces. }
  eexists. unfold print, emit. rewrite Htraces. unfold log_more. simpl.
  by rewrite <- app_assoc.
Qed.

End pipeline.

(** C7, as stated, fails in two ways.  With [--no-env] and
    [--same-enclosure] on [sysA; sysD], where [d.json] lacks the [enclosure]
    metric, the environment stage returns at its first test: no notice is
    printed and no per-trace dispatch runs.  And on [sysA; sysA_bare], where
    the preference is auto-detected, [d2.json] lacks the metric and reuses
    the name [sysA], the notice is printed but the run then aborts in the
    validator, without any scaling or individual graph. *)
Lemma missing_metric_notice_not_reached :
  (same_enclosure {| traces := [sysA; sysD]; no_env := false;
                     same_enclosure := true; outdir := "out" |} = true
   ∧ ¬ exposes_metrics sysD
   ∧ run (render_traces (R := unit_renderer))
         {| traces := [sysA; sysD]; no_env := false;
            same_enclosure := true; outdir := "out" |}
     = (Done (),
        {| st_args := {| traces := [sysA; sysD]; no_env := false;
                         same_enclosure := true; outdir := "out" |};
           st_log := [InitMatplotlib; Mkdir "out"; Print "environment: disabled by user";
                      Print "Scaling: rendering 1 jobs";
                      ScalingGraph "avx" ["sysA"; "sysD"];
                      Print "Individual: rendering 1 jobs";
                      IndividualGraph "avx" ["sysA"; "sysD"];
                      Print "2 graphs can be found in 'out' directory"] |}))
  ∧ (shared_enclosure [sysA; sysA_bare] = Some "ENC1"
     ∧ ¬ exposes_metrics sysA_bare
     ∧ (run (render_traces (R := unit_renderer)) (sample_args [sysA; sysA_bare])).1
       = Fatal "d2.json is using 'sysA' as logical_name while it's already in use"
     ∧ st_log (run (render_traces (R := unit_renderer)) (sample_args [sysA; sysA_bare])).2
       = [InitMatplotlib; Mkdir "out";
          Print "environment: All traces are from the same enclosure (ENC1), enabling --same-enclosure feature";
          Print "environment: missing 'enclosure' monitoric metric in d2.json, disabling same-enclosure print"]
         ++ per_trace_events "out" [sysA; sysA_bare]).
Proof.
  assert (∀ t, first_bench t = avx_bare → ¬ exposes_metrics t) as Hbare.
  { intros t Ht [_ [mean Hmean]]. rewrite Ht in Hmean. by vm_compute in Hmean. }
  split; split_and!.
  - reflexivity.
  - by apply Hbare.
  - by vm_compute.
  - by vm_compute.
  - by apply Hbare.
  - by vm_compute.
  - by vm_compute.
Qed.

(** C7 (amended): the environment stage is enabled ([--no-env] not given),
    the same-enclosure preference is active (set by the user or by the
    auto-detection) and some trace lacks the [chassis] or the [enclosure]
    metric on its first bench.  Then, with [t] the first such trace and
    [metric] the metric found missing on it, [chassis] being looked up
    before [enclosure]: the environment stage returns normally; it has issued no environment-comparison request; it has
    printed the disabling notice, given here in full, naming [metric] and
    the file of [t]; and it has run the per-trace fan, CPU and thermal
    dispatch of every bench of every trace.  The run goes on from there with
    the validator, the job aggregation and the summary line; on a Comparison
    Set that the validator accepts, it completes with the scaling and
    individual requests of every job identity. *)
Theorem render_traces_missing_metric `{R : Renderer} s reference rest :
  no_env (st_args s) = true →
  traces (st_args s) = reference :: rest →
  same_enclosure (st_args s) = true ∨ is_Some (shared_enclosure (traces (st_args s))) →
  ¬ Forall exposes_metrics (traces (st_args s)) →
  ∃ pre t post metric,
    traces (st_args s) = pre ++ t :: post
    ∧ Forall exposes_metrics pre
    ∧ metric ∈ ["chassis"; "enclosure"]
    ∧ get_metric_mean t (first_bench t) metric = None
    ∧ (metric = "enclosure" → is_Some (get_metric_mean t (first_bench t) "chassis"))
    ∧ let env_events := λ output_dir,
        detection_events (traces (st_args s))
        ++ [Print ("environment: missing '" +:+ metric +:+ "' monitoric metric in "
                   +:+ filename t +:+ ", disabling same-enclosure print")]
        ++ per_trace_events output_dir (traces (st_args s)) in
      (∀ output_dir, Forall (λ e, is_graph_enclosure e = false) (env_events output_dir))
      ∧ (∀ output_dir, ∃ n,
           graph_environment output_dir s
           = (Done n, {| st_args := set_same_enclosure true (st_args s);
                         st_log := st_log s ++ env_events output_dir |}))
      ∧ (∃ n_env : nat,
           render_traces s
           = (compare_traces ;;;
              n <- plot_graphs (Path (outdir (st_args s))) ;;
              print (pretty (0 + n_env + n) +:+ " graphs can be found in '"
                     +:+ Path (outdir (st_args s)) +:+ "' directory"))
               {| st_args := set_same_enclosure true (st_args s);
                  st_log := st_log s
                    ++ [InitMatplotlib; Mkdir (Path (outdir (st_args s)))]
                    ++ env_events (Path (outdir (st_args s))) |})
      ∧ (Forall (compatible_with reference) (traces (st_args s)) →
         NoDup (map get_name (traces (st_args s))) →
         ∃ total : nat,
           render_traces s
           = (Done (),
              {| st_args := set_same_enclosure true (st_args s);
                 st_log := st_log s
                   ++ [InitMatplotlib; Mkdir (Path (outdir (st_args s)))]
                   ++ env_events (Path (outdir (st_args s)))
                   ++ plot_requests (first_occurrences (bench_job_names reference))
                                    (map get_name (traces (st_args s)))
                   ++ [Print (pretty total +:+ " graphs can be found in '"
                              +:+ Path (outdir (st_args s)) +:+ "' directory")] |})).
Proof.
  intros Hon Hargs Hactive Hmiss.
  destruct (first_offender exposes_metrics _ Hmiss) as (pre & t & post & Hsplit & Hpre & Ht).
  destruct (missing_metric_Some t Ht) as (metric & Hmetric & Hin & Hnone & Hfirst).
  pose proof (check_metrics_first_missing pre t post metric Hpre Hmetric) as Hnotice.
  rewrite <- Hsplit in Hnotice.
  exists pre, t, post, metric. split_and!; [done..|]. cbv zeta. split_and!.
  - intros output_dir. rewrite !Forall_app. split_and!.
    + unfold detection_events. destruct (shared_enclosure _); by repeat constructor.
    + by repeat constructor.
    + apply per_trace_events_no_enclosure.
  - intros output_dir.
    destruct (graph_environment_gate_fails output_dir s reference rest)
      as [n Hn]; [done..|].
    exists n. by rewrite Hn, Hnotice.
  - destruct (graph_environment_gate_fails (Path (outdir (st_args s)))
                (log_more s [InitMatplotlib; Mkdir (Path (outdir (st_args s)))]) reference rest)
      as [n Hn]; [done..|].
    exists n. rewrite (render_traces_after_environment _ _ _ Hn).
    unfold log_more. simpl. rewrite Hnotice. by rewrite <- !app_assoc.
  - intros Hcompat Hnodup.
    destruct (graph_environment_gate_fails (Path (outdir (st_args s)))
                (log_more s [InitMatplotlib; Mkdir (Path (outdir (st_args s)))]) reference rest)
      as [n Hn]; [done..|].
    destruct (render_traces_completes s reference rest _ _ Hargs Hn)
      as [total Htotal]; [done..|].
    exists total. rewrite Htotal. unfold log_more. simpl.
    rewrite Hnotice. by rewrite <- !app_assoc.
Qed.

Lemma render_traces_missing_metric_witness :
  ∃ st, run (render_traces (R := unit_renderer)) (sample_args [sysA; sysD]) = (Done (), st).
Proof.
  destruct (render_traces_missing_metric (R := unit_renderer)
              {| st_args := sample_args [sysA; sysD]; st_log := [] |} sysA [sysD]
              eq_refl eq_refl
              (or_intror (ex_intro _ "ENC1" eq_refl))
              (sysD_lacks_metrics [sysA]))
    as (pre & t & post & metric & _ & _ & _ & _ & _ & _ & _ & _ & Hrun).
  destruct Hrun as [total Htotal].
  - repeat (constructor; [by apply sysA_compatible|]). constructor.
  - compute_done.
  - eexists. exact Htotal.
Defined.

(** The run of C7 on [sysA; sysD], in full: the auto-detection fires, the
    gate fails on [d.json], and 36 graphs are accounted for. *)
Example render_traces_sysA_sysD :
  run (render_traces (R := unit_renderer)) (sample_args [sysA; sysD])
  = (Done (),
     {| st_args := set_same_enclosure true (sample_args [sysA; sysD]);
        st_log :=
          [InitMatplotlib; Mkdir "out";
           Print "environment: All traces are from the same enclosure (ENC1), enabling --same-enclosure feature";
           Print "environment: missing 'enclosure' monitoric metric in d.json, disabling same-enclosure print"]
          ++ per_trace_events "out" [sysA; sysD]
          ++ plot_requests ["avx"] ["sysA"; "sysD"]
          ++ [Print "36 graphs can be found in 'out' directory"] |}).
Proof. vm_compute. reflexivity. Qed.

(** * The order of the stages *)

Section order.
Context `{R : Renderer}.

(** The enabled environment stage on a non-empty Comparison Set always
    returns, and its log ends with the per-trace dispatch of every bench of
    every trace. *)
Lemma graph_environment_enabled output_dir s reference rest :
  no_env (st_args s) = true →
  traces (st_args s) = reference :: rest →
  ∃ n args' evs,
    graph_environment output_dir s
    = (Done n, {| st_args := args';
                  st_log := st_log s ++ evs
                            ++ per_trace_events output_dir (traces (st_args s)) |})
    ∧ traces args' = traces (st_args s) ∧ outdir args' = outdir (st_args s).
Proof.
  intros Hon Hargs.
  unfold graph_environment, get_args. unfold bind at 1. rewrite Hon.
  change (negb true) with false. cbv iota.
  erewrite bind_done by (by eapply detect_same_enclosure_spec).
  set (s1 := {| st_args := _; st_log := _ |}).
  assert (traces (st_args s1) = traces (st_args s)
          ∧ outdir (st_args s1) = outdir (st_args s)) as [Htraces Houtdir].
  { unfold s1. simpl. by destruct (shared_enclosure _). }
  assert (∃ n evs, enclosure_graphs output_dir 0 s1 = (Done n, log_more s1 evs))
    as (n & evs & Hgate).
  { destruct (same_enclosure (st_args s1)) eqn:Hflag.
    - destruct (decide (Forall exposes_metrics (traces (st_args s1)))) as [Hall|Hmiss].
      + do 2 eexists. eapply enclosure_graphs_pass; [|done..]. by rewrite Htraces.
      + do 2 eexists. by apply enclosure_graphs_skip.
    - exists 0, []. rewrite log_more_nil. by apply enclosure_graphs_off. }
  erewrite bind_done by exact Hgate.
  destruct (per_trace_graphs_spec output_dir n (log_more s1 evs)) as [n' Hn'].
  exists n', (st_args s1), (detection_events (traces (st_args s)) ++ evs).
  split; [|done]. rewrite Hn'. unfold log_more, s1 in *. simpl in *.
  rewrite Htraces. by rewrite <- !app_assoc.
Qed.

(** With the environment stage enabled, a Comparison Set that the validator
    rejects has had all its per-trace graphs requested by the time the run
    aborts. *)
Lemma render_traces_validates_late s reference rest reason :
  no_env (st_args s) = true →
  traces (st_args s) = reference :: rest →
  rejects (traces (st_args s)) reason →
  ∃ args' evs,
    render_traces s
    = (Fatal reason,
       {| st_args := args';
          st_log := st_log s ++ [InitMatplotlib; Mkdir (Path (outdir (st_args s)))] ++ evs
                    ++ per_trace_events (Path (outdir (st_args s))) (traces (st_args s)) |}).
Proof.
  intros Hon Hargs Hrejects.
  destruct (graph_environment_enabled (Path (outdir (st_args s)))
              (log_more s [InitMatplotlib; Mkdir (Path (outdir (st_args s)))]) reference rest)
    as (n & args' & evs & Henv & Htraces & _); [done..|].
  exists args', evs.
  unfold render_traces. unfold bind at 1. unfold emit at 1.
  unfold get_args. unfold bind at 1. unfold bind at 1. unfold emit at 1.
  simpl st_args. simpl st_log. unfold log_more in Henv. simpl in Henv.
  rewrite <- app_assoc. simpl app.
  erewrite bind_done by exact Henv.
  erewrite bind_fatal by (by apply Hrejects).
  by rewrite <- !app_assoc.
Qed.

End order.

(** C1 fails on the code: [render_traces] calls [graph_environment] before
    [compare_traces].  On [sysA; sysA_again], two traces with the same
    logical name, the validator rejects the set, and the run does abort with
    the duplicate-name error, but only after 40 graph requests were issued
    (2 environment-comparison, 38 per-bench), both traces sharing the
    sub-directory [out/sysA]; no scaling or individual graph is requested. *)
Theorem render_traces_graphs_before_validation :
  (run compare_traces (sample_args [sysA; sysA_again])).1
    = Fatal (duplicate_name_message sysA_again)
  ∧ (run (render_traces (R := unit_renderer)) (sample_args [sysA; sysA_again])).1
    = Fatal (duplicate_name_message sysA_again)
  ∧ st_log (run (render_traces (R := unit_renderer)) (sample_args [sysA; sysA_again])).2
    = [InitMatplotlib; Mkdir "out";
       Print "environment: All traces are from the same enclosure (ENC1), enabling --same-enclosure feature";
       GraphEnclosure "avx_1"; GraphEnclosure "avx_2"]
      ++ per_trace_events "out" [sysA; sysA_again]
  ∧ length (filter (λ e, is_graph_request e = true)
                   (st_log (run (render_traces (R := unit_renderer))
                                (sample_args [sysA; sysA_again])).2)) = 40
  ∧ Mkdir "out/sysA" ∈ trace_events "out" sysA
  ∧ Mkdir "out/sysA" ∈ trace_events "out" sysA_again.
Proof.
  split_and!; [reflexivity|reflexivity|by vm_compute|by vm_compute| |].
  - apply list_elem_of_here.
  - apply list_elem_of_here.
Qed.

(** The hypothesis of [render_traces_validates_late] holds of the sample
    set: the validator rejects it in whatever state it is run. *)
Lemma sysA_sysA_again_rejected :
  rejects [sysA; sysA_again] (duplicate_name_message sysA_again).
Proof.
  intros s Hargs.
  apply (compare_traces_stops_at_duplicate s sysA [sysA_again] [sysA] sysA_again []);
    [done|done| | |].
  - repeat (constructor; [by apply sysA_compatible|]). constructor.
  - compute_done.
  - compute_done.
Qed.

(** * The validator, characterised *)

(** The loop of the validator from any point: it never raises and never
    touches the state; it runs to its end exactly on compatible traces whose
    names are fresh and pairwise distinct, and any abort carries the message
    of one of the traces. *)
Lemma compare_loop_outcome args reference rest ts names s :
  traces args = reference :: rest →
  NoDup names →
  ∃ o, foreach ts names (compare_trace args) s = (o, s)
       ∧ match o with
         | Done names' =>
           names' = names ++ map get_name ts
           ∧ Forall (compatible_with reference) ts
           ∧ NoDup (names ++ map get_name ts)
         | Fatal reason =>
           ¬ (Forall (compatible_with reference) ts
              ∧ NoDup (names ++ map get_name ts))
           ∧ ∃ t, t ∈ ts ∧ (reason = config_mismatch_message t
                            ∨ reason = duplicate_name_message t)
         | Raised _ => False
         end.
Proof.
  intros Hargs. revert names.
  induction ts as [|t ts IH]; intros names Hnames; simpl.
  - exists (Done names). rewrite app_nil_r. by split_and!.
  - destruct (decide (config_difference (get_original_config reference)
                                        (get_original_config t) = ∅)) as [Hcfg|Hcfg].
    + rewrite config_difference_empty in Hcfg.
      destruct (decide (get_name t ∈ names)) as [Hseen|Hfresh].
      * exists (Fatal (duplicate_name_message t)). split.
        { apply bind_fatal. by eapply compare_trace_duplicate. }
        split.
        -- intros [_ Hnodup]. apply NoDup_app in Hnodup as (_ & Hdisj & _).
           apply (Hdisj _ Hseen). apply list_elem_of_here.
        -- exists t. split; [apply list_elem_of_here|by right].
      * destruct (IH (names ++ [get_name t])) as (o & Ho & Hspec).
        { apply NoDup_app. split_and!; [done| |apply NoDup_singleton].
          intros x Hx Hx'. apply list_elem_of_singleton in Hx'. by subst. }
        exists o. split.
        { erewrite bind_done by (by eapply compare_trace_accepts). exact Ho. }
        rewrite <- app_assoc in Hspec. simpl in Hspec.
        destruct o as [names'|reason|e]; [|clear IH|done].
        -- destruct Hspec as (-> & Hts & Hnodup). split_and!; [done| |done].
           by constructor.
        -- destruct Hspec as (Hnot & u & Hu & Hreason). split.
           ++ intros [Hall Hnodup]. apply Hnot.
              apply Forall_cons in Hall as [_ Hall]. by split.
           ++ exists u. split; [by apply list_elem_of_further|done].
    + exists (Fatal (config_mismatch_message t)). split.
      { apply bind_fatal. eapply compare_trace_mismatch; [done|].
        by apply config_difference_nonempty. }
      split.
      * intros [Hall _]. apply Forall_cons in Hall as [Ht _].
        by apply Hcfg, config_difference_empty.
      * exists t. split; [apply list_elem_of_here|by left].
Qed.

(** The validator as a whole, on a non-empty Comparison Set. *)
Lemma compare_traces_outcome s reference rest :
  traces (st_args s) = reference :: rest →
  ∃ o, compare_traces s = (o, s)
       ∧ match o with
         | Done _ =>
           Forall (compatible_with reference) (traces (st_args s))
           ∧ NoDup (map get_name (traces (st_args s)))
         | Fatal reason =>
           ¬ (Forall (compatible_with reference) (traces (st_args s))
              ∧ NoDup (map get_name (traces (st_args s))))
           ∧ ∃ t, t ∈ traces (st_args s)
                  ∧ (reason = config_mismatch_message t
                     ∨ reason = duplicate_name_message t)
         | Raised _ => False
         end.
Proof.
  intros Hargs.
  destruct (compare_loop_outcome (st_args s) reference rest (traces (st_args s)) [] s
              Hargs (NoDup_nil_2)) as (o & Ho & Hspec).
  unfold compare_traces, get_args. unfold bind at 1. unfold bind at 1. rewrite Ho.
  destruct o as [names'|reason|e]; [|by exists (Fatal reason)|done].
  exists (Done ()). split; [done|]. by destruct Hspec as (_ & ? & ?).
Qed.

(** X1: on a non-empty Comparison Set the validator returns normally exactly
    when every trace's configuration covers the reference's entries and the
    logical names are pairwise distinct; otherwise it aborts with the
    configuration or the duplicate-name message of one of the traces.  It
    never raises and never changes [args] or the log. *)
Theorem compare_traces_accepts_iff s reference rest :
  traces (st_args s) = reference :: rest →
  (compare_traces s = (Done (), s)
   ↔ Forall (compatible_with reference) (traces (st_args s))
     ∧ NoDup (map get_name (traces (st_args s))))
  ∧ (compare_traces s = (Done (), s)
     ∨ ∃ t, t ∈ traces (st_args s)
            ∧ (compare_traces s = (Fatal (config_mismatch_message t), s)
               ∨ compare_traces s = (Fatal (duplicate_name_message t), s))).
Proof.
  intros Hargs. destruct (compare_traces_outcome s reference rest Hargs) as (o & Ho & Hspec).
  destruct o as [[]|reason|e]; [| |done].
  - split; [|by left]. by split.
  - destruct Hspec as (Hnot & t & Ht & Hreason). split.
    + rewrite Ho. split; [done|]. intros Hok. by destruct Hnot.
    + right. exists t. split; [done|]. rewrite Ho. by destruct Hreason as [->| ->]; [left|right].
Qed.

Lemma compare_traces_accepts_iff_witness :
  run compare_traces (sample_args [sysA; sysB])
  = (Done (), {| st_args := sample_args [sysA; sysB]; st_log := [] |}).
Proof.
  apply (proj1 (compare_traces_accepts_iff
                  {| st_args := sample_args [sysA; sysB]; st_log := [] |}
                  sysA [sysB] eq_refl)).
  split.
  - repeat (constructor; [by apply sysA_compatible|]). constructor.
  - compute_done.
Defined.

(** X2: the check is one-sided.  Two distinctly named traces pass in the
    order [t1; t2] exactly when [t2] has every configuration entry of [t1];
    they pass in both orders exactly when their configurations have the same
    entries, so a trace with additional entries is accepted only when it is
    not the reference. *)
Theorem compare_traces_order_matters s1 s2 t1 t2 :
  traces (st_args s1) = [t1; t2] →
  traces (st_args s2) = [t2; t1] →
  get_name t1 ≠ get_name t2 →
  (compare_traces s1 = (Done (), s1) ↔ compatible_with t1 t2)
  ∧ (compare_traces s1 = (Done (), s1) ∧ compare_traces s2 = (Done (), s2)
     ↔ ∀ entry, entry ∈ get_original_config t1 ↔ entry ∈ get_original_config t2).
Proof.
  intros H1 H2 Hname.
  assert (∀ s u v, traces (st_args s) = [u; v] → get_name u ≠ get_name v →
                   (compare_traces s = (Done (), s) ↔ compatible_with u v)) as Hpair.
  { intros s u v Hs Huv.
    destruct (compare_traces_outcome s u [v] Hs) as (o & Ho & Hspec).
    rewrite Hs in Hspec.
    assert (Forall (compatible_with u) [u; v] ∧ NoDup (map get_name [u; v])
            ↔ compatible_with u v) as Hiff.
    { split.
      - intros [Hall _]. apply Forall_cons in Hall as [_ Hall].
        by rewrite Forall_singleton in Hall.
      - intros Hv. split.
        + constructor; [by intros entry|]. by apply Forall_singleton.
        + simpl. apply NoDup_cons. split; [|apply NoDup_singleton].
          intros Hin%list_elem_of_singleton. by apply Huv. }
    destruct o as [[]|reason|e]; [| |done].
    - split; [|done]. intros _. by apply Hiff.
    - destruct Hspec as [Hnot _]. rewrite Ho. split; [done|].
      intros Hv. destruct Hnot. by apply Hiff. }
  split; [by apply Hpair|].
  rewrite (Hpair s1 t1 t2 H1 Hname), (Hpair s2 t2 t1 H2) by done.
  unfold compatible_with. split.
  - intros [H12 H21] entry. split; [apply H12|apply H21].
  - intros Hsame. split; intros entry; apply Hsame.
Qed.

Lemma compare_traces_order_matters_witness :
  run compare_traces (sample_args [sysA; sysE])
  = (Done (), {| st_args := sample_args [sysA; sysE]; st_log := [] |}).
Proof.
  apply (proj1 (compare_traces_order_matters
                  {| st_args := sample_args [sysA; sysE]; st_log := [] |}
                  {| st_args := sample_args [sysE; sysA]; st_log := [] |}
                  sysA sysE eq_refl eq_refl ltac:(discriminate))).
  intros entry Hin. simpl in *. rewrite !elem_of_cons in *. tauto.
Defined.

(** The other order of the same two traces is rejected. *)
Example compare_traces_sysE_sysA :
  (run compare_traces (sample_args [sysE; sysA])).1
  = Fatal (config_mismatch_message sysA).
Proof. reflexivity. Qed.

(** * What the stages never do *)

Lemma args_kept_refl a : args_kept a a.
Proof. by split_and!. Qed.

Lemma args_kept_trans a1 a2 a3 : args_kept a1 a2 → args_kept a2 a3 → args_kept a1 a3.
Proof.
  intros (Ht & Hn & Ho & Hs) (Ht' & Hn' & Ho' & Hs'). split_and!; [congruence..|auto].
Qed.

Lemma appends_ret {A} P (a : A) : appends P (ret a).
Proof.
  intros s o s' [= <- <-]. split; [apply args_kept_refl|].
  exists []. by rewrite app_nil_r.
Qed.

Lemma appends_fatal {A} P reason : appends P (fatal (A := A) reason).
Proof.
  intros s o s' [= <- <-]. split; [apply args_kept_refl|].
  exists []. by rewrite app_nil_r.
Qed.

Lemma appends_raise {A} P e : appends P (raise (A := A) e).
Proof.
  intros s o s' [= <- <-]. split; [apply args_kept_refl|].
  exists []. by rewrite app_nil_r.
Qed.

Lemma appends_get_args P : appends P get_args.
Proof.
  intros s o s' [= <- <-]. split; [apply args_kept_refl|].
  exists []. by rewrite app_nil_r.
Qed.

Lemma appends_emit (P : event → Prop) e : P e → appends P (emit e).
Proof.
  intros He s o s' [= <- <-]. split; [apply args_kept_refl|].
  exists [e]. split; [done|]. by constructor.
Qed.

Lemma appends_assign_true P : appends P (assign_same_enclosure true).
Proof.
  intros s o s' [= <- <-]. split; [by split_and!|].
  exists []. by rewrite app_nil_r.
Qed.

Lemma appends_bind {A B} P (m : M A) (k : A → M B) :
  appends P m → (∀ a, appends P (k a)) → appends P (bind m k).
Proof.
  intros Hm Hk s o s' Hrun. unfold bind in Hrun.
  destruct (m s) as [[a|reason|e] s1] eqn:Hms.
  - destruct (Hm _ _ _ Hms) as (Hargs1 & evs1 & Hlog1 & HP1).
    destruct (Hk a _ _ _ Hrun) as (Hargs2 & evs2 & Hlog2 & HP2).
    split; [by eapply args_kept_trans|].
    exists (evs1 ++ evs2). rewrite Hlog2, Hlog1, app_assoc. split; [done|].
    by apply Forall_app.
  - injection Hrun as <- <-. by eapply Hm.
  - injection Hrun as <- <-. by eapply Hm.
Qed.

Lemma appends_foreach {A S} P (l : list A) (body : S → A → M S) :
  (∀ acc x, appends P (body acc x)) → ∀ acc, appends P (foreach l acc body).
Proof.
  intros Hbody. induction l as [|x l IH]; intros acc; simpl.
  - apply appends_ret.
  - apply appends_bind; [apply Hbody|]. intros acc'. apply IH.
Qed.

Lemma appends_mono {A} (P Q : event → Prop) (m : M A) :
  (∀ e, P e → Q e) → appends P m → appends Q m.
Proof.
  intros HPQ Hm s o s' Hrun. destruct (Hm _ _ _ Hrun) as (Hargs & evs & Hlog & HP).
  split; [done|]. exists evs. split; [done|]. by eapply Forall_impl.
Qed.

Lemma appends_item0 {A} P (l : list A) : appends P (item0 l).
Proof. destruct l; [apply appends_raise|apply appends_ret]. Qed.

Lemma appends_bench P t bench_name : appends P (bench t bench_name).
Proof. unfold bench. destruct (benches t !! bench_name); [apply appends_ret|apply appends_raise]. Qed.

(** The validator appends nothing at all. *)
Lemma appends_compare_traces P : appends P compare_traces.
Proof.
  unfold compare_traces.
  apply appends_bind; [apply appends_get_args|]. intros args.
  apply appends_bind; [|intros; apply appends_ret].
  apply appends_foreach. intros names t. unfold compare_trace.
  apply appends_bind; [apply appends_item0|]. intros reference.
  apply appends_bind.
  - case_bool_decide; [apply appends_fatal|apply appends_ret].
  - intros _. case_bool_decide; [apply appends_fatal|apply appends_ret].
Qed.

Section never.
Context `{R : Renderer}.

Lemma appends_generic_graph (P : event → Prop) output_dir b c t x :
  P (GenericGraph b c t x) → appends P (generic_graph output_dir b c t x).
Proof.
  intros HP. unfold generic_graph.
  apply appends_bind; [apply appends_get_args|]. intros args.
  apply appends_bind; [by apply appends_emit|]. intros _. apply appends_ret.
Qed.

Lemma appends_yerr_graph (P : event → Prop) output_dir b c f :
  P (YerrGraph b c f) → appends P (yerr_graph output_dir b c f).
Proof.
  intros HP. unfold yerr_graph.
  apply appends_bind; [apply appends_get_args|]. intros args.
  apply appends_bind; [by apply appends_emit|]. intros _. apply appends_ret.
Qed.

Lemma appends_graph_enclosure (P : event → Prop) bench_name output_dir :
  P (GraphEnclosure bench_name) → appends P (graph_enclosure bench_name output_dir).
Proof.
  intros HP. unfold graph_enclosure.
  apply appends_bind; [apply appends_get_args|]. intros args.
  apply appends_bind; [by apply appends_emit|]. intros _. apply appends_ret.
Qed.

(** The environment stage, whatever its outcome, requests no scaling and no
    individual graph. *)
Lemma appends_graph_environment output_dir :
  appends (λ e, is_plot_request e = false) (graph_environment output_dir).
Proof.
  unfold graph_environment.
  apply appends_bind; [apply appends_get_args|]. intros args.
  destruct (negb (no_env args)).
  { apply appends_bind; [by apply appends_emit|]. intros _. apply appends_ret. }
  apply appends_bind.
  { unfold detect_same_enclosure.
    apply appends_bind; [apply appends_get_args|]. intros args'.
    apply appends_bind; [apply appends_item0|]. intros reference.
    destruct (get_enclosure_serial reference) as [serial|]; [|apply appends_ret].
    repeat case_bool_decide; try apply appends_ret.
    apply appends_bind; [by apply appends_emit|]. intros _.
    apply appends_assign_true. }
  intros _. apply appends_bind.
  { unfold enclosure_graphs.
    apply appends_bind; [apply appends_get_args|]. intros args'.
    destruct (same_enclosure args'); [|apply appends_ret].
    case_bool_decide.
    - apply appends_bind; [apply appends_item0|]. intros reference.
      apply appends_foreach. intros acc bench_name.
      apply appends_bind; [by apply appends_graph_enclosure|]. intros n.
      apply appends_ret.
    - apply appends_bind; [by apply appends_emit|]. intros _. apply appends_ret. }
  intros rendered_graphs. unfold per_trace_graphs.
  apply appends_bind; [apply appends_get_args|]. intros args'.
  apply appends_foreach. intros acc trace.
  apply appends_bind; [by apply appends_emit|]. intros _.
  apply appends_bind; [by apply appends_emit|]. intros _.
  apply appends_foreach. intros acc' bench_name.
  apply appends_bind.
  { unfold graph_fans.
    apply appends_bind; [apply appends_bench|]. intros b.
    destruct (get_components b "fan") as [|fan fans].
    - apply appends_bind; [by apply appends_emit|]. intros _. apply appends_ret.
    - apply appends_bind.
      + apply appends_foreach. intros acc'' second_axis.
        apply appends_bind; [by apply appends_generic_graph|]. intros n.
        apply appends_ret.
      + intros n. apply appends_foreach. intros acc'' f.
        apply appends_bind; [by apply appends_yerr_graph|]. intros n'.
        apply appends_ret. }
  intros n1. apply appends_bind.
  { unfold graph_cpu.
    apply appends_bind; [apply appends_bench|]. intros b.
    apply appends_foreach. intros acc'' [graph title].
    apply appends_foreach. intros acc''' second_axis.
    apply appends_bind; [by apply appends_generic_graph|]. intros n.
    apply appends_ret. }
  intros n2. apply appends_bind.
  { unfold graph_thermal.
    apply appends_bind; [apply appends_bench|]. intros b.
    apply appends_bind; [by apply appends_generic_graph|]. intros n.
    apply appends_ret. }
  intros n3. apply appends_ret.
Qed.

(** On a Comparison Set that the validator rejects, the environment stage
    returns. *)
Lemma graph_environment_returns_on_rejected output_dir s reason :
  rejects (traces (st_args s)) reason →
  ∃ n s', graph_environment output_dir s = (Done n, s').
Proof.
  intros Hrejects.
  destruct (traces (st_args s)) as [|reference rest] eqn:Hargs.
  { specialize (Hrejects s Hargs). unfold compare_traces, get_args in Hrejects.
    unfold bind at 1 in Hrejects. by rewrite Hargs in Hrejects. }
  destruct (no_env (st_args s)) eqn:Hon.
  - destruct (graph_environment_enabled output_dir s reference rest Hon Hargs)
      as (n & args' & evs & Henv & _). eauto.
  - rewrite graph_environment_disabled by done. eauto.
Qed.

(** X3: a run on a Comparison Set that the validator rejects ends with the
    validator's fatal error, and up to there it has requested no scaling and
    no individual graph; [args] is as the user supplied it, except that
    [same_enclosure] may have been set. *)
Theorem render_traces_rejected_no_plot s reason :
  rejects (traces (st_args s)) reason →
  ∃ s', render_traces s = (Fatal reason, s')
        ∧ args_kept (st_args s) (st_args s')
        ∧ ∃ evs, st_log s' = st_log s ++ evs
                 ∧ Forall (λ e, is_plot_request e = false) evs.
Proof.
  intros Hrejects.
  set (s1 := log_more s [InitMatplotlib; Mkdir (Path (outdir (st_args s)))]).
  destruct (graph_environment_returns_on_rejected (Path (outdir (st_args s))) s1 reason)
    as (n & s2 & Henv); [done|].
  destruct (appends_graph_environment _ _ _ _ Henv) as (Hkept & evs & Hlog & Hevs).
  exists s2. split_and!; [|done|].
  - rewrite (render_traces_after_environment _ _ _ Henv).
    apply bind_fatal. apply Hrejects. by destruct Hkept as [-> _].
  - exists ([InitMatplotlib; Mkdir (Path (outdir (st_args s)))] ++ evs).
    rewrite Hlog. unfold s1, log_more. simpl. rewrite <- app_assoc. split; [done|].
    by repeat constructor.
Qed.

End never.

Lemma render_traces_rejected_no_plot_witness :
  ∃ s', run (render_traces (R := unit_renderer)) (sample_args [sysA; sysA_again])
        = (Fatal (duplicate_name_message sysA_again), s').
Proof.
  destruct (render_traces_rejected_no_plot (R := unit_renderer)
              {| st_args := sample_args [sysA; sysA_again]; st_log := [] |}
              (duplicate_name_message sysA_again) sysA_sysA_again_rejected)
    as (s' & Hrun & _).
  exists s'. exact Hrun.
Defined.

(** * The environment stage, in full *)

(** The loop of [valid_traces] returns the notice as spelled out in
    [disabling_notice]. *)
Lemma check_metrics_disabling_notice ts : check_metrics ts = disabling_notice ts.
Proof.
  induction ts as [|t ts IH]; [done|]. simpl.
  destruct (decide (exposes_metrics t)) as [Hall|Hmiss].
  - apply missing_metric_None in Hall. by rewrite Hall.
  - unfold missing_metric. simpl List.find.
    destruct (decide (is_Some (get_metric_mean t (first_bench t) "chassis")))
      as [Hchassis|Hchassis].
    + rewrite bool_decide_eq_false_2 by (by destruct Hchassis as [c ->]).
      rewrite bool_decide_eq_true_2; [done|].
      destruct (get_metric_mean t (first_bench t) "enclosure") eqn:He; [|done].
      destruct Hmiss. split; [done|]. rewrite He. eauto.
    + rewrite bool_decide_eq_true_2; [done|].
      destruct (get_metric_mean t (first_bench t) "chassis"); [|done].
      destruct Hchassis. eauto.
Qed.

Section stage.
Context `{R : Renderer}.

(** X4: the enabled environment stage on a non-empty Comparison Set always
    returns, and the log it leaves is, in order: the detection notice when
    the set shares an enclosure; the outcome of the validity gate (nothing
    when the preference is off, one environment-comparison request per bench
    name of the reference in sorted order, or the disabling notice); then,
    for every trace in input order, its sub-directory, its summary line and
    the fan, CPU and thermal requests of its benches in sorted order.  The
    preference ends up set exactly when the user set it or the set shares an
    enclosure. *)
Theorem graph_environment_log output_dir s reference rest :
  no_env (st_args s) = true →
  traces (st_args s) = reference :: rest →
  (∃ n, graph_environment output_dir s
        = (Done n,
           {| st_args := after_detection (st_args s);
              st_log := st_log s
                ++ detection_events (traces (st_args s))
                ++ enclosure_events (after_detection (st_args s))
                ++ per_trace_events output_dir (traces (st_args s)) |}))
  ∧ same_enclosure (after_detection (st_args s))
    = same_enclosure (st_args s)
      || bool_decide (is_Some (shared_enclosure (traces (st_args s)))).
Proof.
  intros Hon Hargs. split.
  - unfold graph_environment, get_args. unfold bind at 1. rewrite Hon.
    change (negb true) with false. cbv iota.
    erewrite bind_done by (by eapply detect_same_enclosure_spec).
    fold (after_detection (st_args s)).
    set (s1 := {| st_args := _; st_log := _ |}).
    assert (traces (st_args s1) = reference :: rest) as Htraces.
    { unfold s1, after_detection. simpl. by destruct (shared_enclosure _). }
    assert (∃ n, enclosure_graphs output_dir 0 s1
                 = (Done n, log_more s1 (enclosure_events (st_args s1))))
      as [n Hgate_state].
    { unfold enclosure_events. rewrite Htraces.
      destruct (same_enclosure (st_args s1)) eqn:Hflag.
      - destruct (decide (Forall exposes_metrics (reference :: rest))) as [Hall|Hmiss].
        + eexists. eapply enclosure_graphs_pass; [done..|]. by rewrite Htraces.
        + exists 0. rewrite enclosure_graphs_skip, valid_traces_check_metrics, Htraces,
            check_metrics_disabling_notice; [done..|]. by rewrite Htraces.
      - exists 0. rewrite enclosure_graphs_off by done. by rewrite log_more_nil. }
    erewrite bind_done by exact Hgate_state.
    destruct (per_trace_graphs_spec output_dir n
                (log_more s1 (enclosure_events (st_args s1)))) as [n' Hn'].
    exists n'. rewrite Hn'. unfold log_more, s1. simpl.
    replace (traces (after_detection (st_args s))) with (traces (st_args s)).
    2: { unfold after_detection. by destruct (shared_enclosure _). }
    by rewrite <- !app_assoc.
  - unfold after_detection.
    destruct (shared_enclosure (traces (st_args s))) as [serial|];
      by destruct (same_enclosure (st_args s)).
Qed.

End stage.

Lemma graph_environment_log_witness :
  (∃ n, run (graph_environment (R := unit_renderer) "out") (sample_args [sysA; sysB])
        = (Done n,
           {| st_args := set_same_enclosure true (sample_args [sysA; sysB]);
              st_log :=
                [Print "environment: All traces are from the same enclosure (ENC1), enabling --same-enclosure feature";
                 GraphEnclosure "avx_1"; GraphEnclosure "avx_2"]
                ++ per_trace_events "out" [sysA; sysB] |}))
  ∧ (∃ n, run (graph_environment (R := unit_renderer) "out") (sample_args [sys_abs])
          = (Done n,
             {| st_args := sample_args [sys_abs];
                st_log :=
                  [Mkdir "/tmp/abs";
                   Print "environment: rendering 1 jobs from abs.json (/tmp/abs)";
                   Print "avx_2: no fans"]
                  ++ cpu_requests avx_2
                  ++ [GenericGraph avx_2 "temp" "Temperatures" None] |})).
Proof.
  split.
  - apply (proj1 (graph_environment_log (R := unit_renderer) "out"
                    {| st_args := sample_args [sysA; sysB]; st_log := [] |}
                    sysA [sysB] eq_refl eq_refl)).
  - apply (proj1 (graph_environment_log (R := unit_renderer) "out"
                    {| st_args := sample_args [sys_abs]; st_log := [] |}
                    sys_abs [] eq_refl eq_refl)).
Defined.

(** * The reported number of graphs *)

Lemma graph_requests_app evs1 evs2 :
  graph_requests (evs1 ++ evs2) = graph_requests evs1 + graph_requests evs2.
Proof. unfold graph_requests. by rewrite filter_app, length_app. Qed.

Lemma quiet_ret {A} (a : A) : quiet (ret a).
Proof. intros s a' s' [= <- <-]. exists []. by rewrite app_nil_r. Qed.

Lemma quiet_emit e : is_graph_request e = false → quiet (emit e).
Proof.
  intros He s a s' [= <- <-]. exists [e]. split; [done|].
  unfold graph_requests. by rewrite filter_cons_False by congruence.
Qed.

Lemma quiet_bind {A B} (m : M A) (k : A → M B) :
  quiet m → (∀ a, quiet (k a)) → quiet (bind m k).
Proof.
  intros Hm Hk s b s' Hrun. unfold bind in Hrun.
  destruct (m s) as [[a|reason|e] s1] eqn:Hms; [|done..].
  destruct (Hm _ _ _ Hms) as (evs1 & Hlog1 & H1).
  destruct (Hk a _ _ _ Hrun) as (evs2 & Hlog2 & H2).
  exists (evs1 ++ evs2). rewrite Hlog2, Hlog1, app_assoc, graph_requests_app.
  split; [done|lia].
Qed.

(** A computation that appends no graph request at all is quiet. *)
Lemma appends_quiet {A} (m : M A) :
  appends (λ e, is_graph_request e = false) m → quiet m.
Proof.
  intros Hm s a s' Hrun. destruct (Hm _ _ _ Hrun) as (_ & evs & Hlog & Hevs).
  exists evs. split; [done|]. clear Hlog. unfold graph_requests.
  induction Hevs as [|e evs He _ IH]; [done|].
  by rewrite filter_cons_False by congruence.
Qed.

Lemma tallies_ret base : tallies base (ret base).
Proof.
  intros s n s' [= <- <-]. exists []. rewrite app_nil_r. split; [done|].
  unfold graph_requests. simpl. lia.
Qed.

Lemma tallies_quiet_bind {A} base (m : M A) (k : A → M nat) :
  quiet m → (∀ a, tallies base (k a)) → tallies base (bind m k).
Proof.
  intros Hm Hk s n s' Hrun. unfold bind in Hrun.
  destruct (m s) as [[a|reason|e] s1] eqn:Hms; [|done..].
  destruct (Hm _ _ _ Hms) as (evs1 & Hlog1 & H1).
  destruct (Hk a _ _ _ Hrun) as (evs2 & Hlog2 & H2).
  exists (evs1 ++ evs2). rewrite Hlog2, Hlog1, app_assoc, graph_requests_app.
  split; [done|lia].
Qed.

Lemma tallies_bind base (m : M nat) (k : nat → M nat) :
  tallies base m → (∀ n, tallies n (k n)) → tallies base (bind m k).
Proof.
  intros Hm Hk s n s' Hrun. unfold bind in Hrun.
  destruct (m s) as [[a|reason|e] s1] eqn:Hms; [|done..].
  destruct (Hm _ _ _ Hms) as (evs1 & Hlog1 & H1).
  destruct (Hk a _ _ _ Hrun) as (evs2 & Hlog2 & H2).
  exists (evs1 ++ evs2). rewrite Hlog2, Hlog1, app_assoc, graph_requests_app.
  split; [done|lia].
Qed.

Lemma tallies_foreach {A} (l : list A) (body : nat → A → M nat) :
  (∀ acc x, tallies acc (body acc x)) → ∀ acc, tallies acc (foreach l acc body).
Proof.
  intros Hbody. induction l as [|x l IH]; intros acc; simpl.
  - apply tallies_ret.
  - intros s n s' Hrun. unfold bind in Hrun.
    destruct (body acc x s) as [[acc'|reason|e] s1] eqn:Hstep; [|done..].
    destruct (Hbody _ _ _ _ _ Hstep) as (evs1 & Hlog1 & H1).
    destruct (IH _ _ _ _ Hrun) as (evs2 & Hlog2 & H2).
    exists (evs1 ++ evs2). rewrite Hlog2, Hlog1, app_assoc, graph_requests_app.
    split; [done|lia].
Qed.

(** [rendered_graphs += m()]. *)
Lemma tallies_add acc (m : M nat) :
  tallies 0 m → tallies acc (n <- m ;; ret (acc + n)).
Proof.
  intros Hm s n s' Hrun. unfold bind in Hrun.
  destruct (m s) as [[a|reason|e] s1] eqn:Hms; [|done..].
  injection Hrun as <- <-. destruct (Hm _ _ _ Hms) as (evs & Hlog & Ha).
  exists evs. split; [done|]. lia.
Qed.

Section tally.
Context `{R : Renderer} {Hunit : UnitRenderer R}.

Lemma tallies_generic_graph output_dir b c t x :
  tallies 0 (generic_graph output_dir b c t x).
Proof.
  intros s n s'. rewrite generic_graph_spec, generic_graph_one.
  intros [= <- <-]. by eexists.
Qed.

Lemma tallies_yerr_graph output_dir b c f : tallies 0 (yerr_graph output_dir b c f).
Proof.
  intros s n s'. rewrite yerr_graph_spec, yerr_graph_one.
  intros [= <- <-]. by eexists.
Qed.

Lemma tallies_graph_enclosure bench_name output_dir :
  tallies 0 (graph_enclosure bench_name output_dir).
Proof.
  intros s n s'. rewrite graph_enclosure_spec, graph_enclosure_one.
  intros [= <- <-]. by eexists.
Qed.

Lemma tallies_scaling_graph output_dir job traces_name :
  tallies 0 (scaling_graph output_dir job traces_name).
Proof.
  intros s n s'. rewrite scaling_graph_spec, scaling_graph_one.
  intros [= <- <-]. by eexists.
Qed.

Lemma tallies_individual_graph output_dir job traces_name :
  tallies 0 (individual_graph output_dir job traces_name).
Proof.
  intros s n s'. rewrite individual_graph_spec, individual_graph_one.
  intros [= <- <-]. by eexists.
Qed.

Lemma quiet_bench t bench_name : quiet (bench t bench_name).
Proof. apply appends_quiet, appends_bench. Qed.

Lemma tallies_graph_fans trace bench_name output_dir :
  tallies 0 (graph_fans trace bench_name output_dir).
Proof.
  unfold graph_fans. apply tallies_quiet_bind; [apply quiet_bench|]. intros b.
  destruct (get_components b "fan") as [|fan fans].
  - apply tallies_quiet_bind; [by apply quiet_emit|]. intros _. apply tallies_ret.
  - apply tallies_bind.
    + apply tallies_foreach. intros acc second_axis.
      apply tallies_add, tallies_generic_graph.
    + intros n. apply tallies_foreach. intros acc f.
      apply tallies_add, tallies_yerr_graph.
Qed.

Lemma tallies_graph_cpu trace bench_name output_dir :
  tallies 0 (graph_cpu trace bench_name output_dir).
Proof.
  unfold graph_cpu. apply tallies_quiet_bind; [apply quiet_bench|]. intros b.
  apply tallies_foreach. intros acc [graph title].
  apply tallies_foreach. intros acc' second_axis.
  apply tallies_add, tallies_generic_graph.
Qed.

Lemma tallies_graph_thermal trace bench_name output_dir :
  tallies 0 (graph_thermal trace bench_name output_dir).
Proof.
  unfold graph_thermal. apply tallies_quiet_bind; [apply quiet_bench|]. intros b.
  apply (tallies_add 0), tallies_generic_graph.
Qed.

(** The three dispatchers of one bench, added to the running total. *)
Lemma tallies_bench_dispatch trace bench_name output_dir acc :
  tallies acc (n1 <- graph_fans trace bench_name output_dir ;;
               n2 <- graph_cpu trace bench_name output_dir ;;
               n3 <- graph_thermal trace bench_name output_dir ;;
               ret (acc + n1 + n2 + n3)).
Proof.
  intros s n s' Hrun. unfold bind in Hrun.
  destruct (graph_fans _ _ _ s) as [[n1|?|?] s1] eqn:H1; [|done..].
  destruct (graph_cpu _ _ _ s1) as [[n2|?|?] s2] eqn:H2; [|done..].
  destruct (graph_thermal _ _ _ s2) as [[n3|?|?] s3] eqn:H3; [|done..].
  injection Hrun as <- <-.
  destruct (tallies_graph_fans _ _ _ _ _ _ H1) as (evs1 & Hlog1 & Hn1).
  destruct (tallies_graph_cpu _ _ _ _ _ _ H2) as (evs2 & Hlog2 & Hn2).
  destruct (tallies_graph_thermal _ _ _ _ _ _ H3) as (evs3 & Hlog3 & Hn3).
  exists (evs1 ++ evs2 ++ evs3).
  rewrite Hlog3, Hlog2, Hlog1, <- !app_assoc, !graph_requests_app. split; [done|]. lia.
Qed.

Lemma tallies_graph_environment output_dir : tallies 0 (graph_environment output_dir).
Proof.
  unfold graph_environment.
  apply tallies_quiet_bind; [apply appends_quiet, appends_get_args|]. intros args.
  destruct (negb (no_env args)).
  { apply tallies_quiet_bind; [by apply quiet_emit|]. intros _. apply tallies_ret. }
  apply tallies_quiet_bind.
  { unfold detect_same_enclosure. apply appends_quiet.
    apply appends_bind; [apply appends_get_args|]. intros args'.
    apply appends_bind; [apply appends_item0|]. intros reference.
    destruct (get_enclosure_serial reference) as [serial|]; [|apply appends_ret].
    repeat case_bool_decide; try apply appends_ret.
    apply appends_bind; [by apply appends_emit|]. intros _.
    apply appends_assign_true. }
  intros _. apply tallies_bind.
  { unfold enclosure_graphs.
    apply tallies_quiet_bind; [apply appends_quiet, appends_get_args|]. intros args'.
    destruct (same_enclosure args'); [|apply tallies_ret].
    case_bool_decide.
    - apply tallies_quiet_bind; [apply appends_quiet, appends_item0|]. intros reference.
      apply tallies_foreach. intros acc bench_name.
      apply tallies_add, tallies_graph_enclosure.
    - apply tallies_quiet_bind; [by apply quiet_emit|]. intros _. apply tallies_ret. }
  intros rendered_graphs. unfold per_trace_graphs.
  apply tallies_quiet_bind; [apply appends_quiet, appends_get_args|]. intros args'.
  apply tallies_foreach. intros acc trace.
  apply tallies_quiet_bind; [by apply quiet_emit|]. intros _.
  apply tallies_quiet_bind; [by apply quiet_emit|]. intros _.
  apply tallies_foreach. intros acc' bench_name. apply tallies_bench_dispatch.
Qed.

Lemma tallies_plot_graphs output_dir : tallies 0 (plot_graphs output_dir).
Proof.
  unfold plot_graphs.
  apply tallies_quiet_bind; [apply appends_quiet, appends_get_args|]. intros args.
  apply tallies_quiet_bind; [apply appends_quiet, appends_item0|]. intros reference.
  apply tallies_quiet_bind.
  { apply appends_quiet, appends_foreach. intros jobs bench_name. unfold collect_job.
    apply appends_bind; [apply appends_item0|]. intros reference'.
    apply appends_bind; [apply appends_bench|]. intros b.
    case_bool_decide; apply appends_ret. }
  intros jobs.
  apply tallies_quiet_bind; [by apply quiet_emit|]. intros _.
  apply tallies_bind.
  { apply tallies_foreach. intros acc job. apply tallies_add, tallies_scaling_graph. }
  intros rendered_graphs.
  apply tallies_quiet_bind; [by apply quiet_emit|]. intros _.
  apply tallies_foreach. intros acc job. apply tallies_add, tallies_individual_graph.
Qed.

(** X5: with a renderer that accounts one graph per request, every
    dispatcher and every stage that returns has returned the number of graph
    requests it issued, whatever the traces hold. *)
Theorem stages_return_their_requests trace bench_name output_dir :
  tallies 0 (graph_fans trace bench_name output_dir)
  ∧ tallies 0 (graph_cpu trace bench_name output_dir)
  ∧ tallies 0 (graph_thermal trace bench_name output_dir)
  ∧ tallies 0 (graph_environment output_dir)
  ∧ tallies 0 (plot_graphs output_dir).
Proof.
  split_and!.
  - apply tallies_graph_fans.
  - apply tallies_graph_cpu.
  - apply tallies_graph_thermal.
  - apply tallies_graph_environment.
  - apply tallies_plot_graphs.
Qed.

(** X6: with a renderer that accounts one graph per request, a run that
    completes ends with the summary line, given here in full: the number it
    reports is the number of graph requests the run has issued, and the
    directory it names is the output directory as [pathlib] writes it. *)
Theorem render_traces_reports_requests s s' :
  render_traces s = (Done (), s') →
  ∃ evs, st_log s'
         = st_log s ++ evs
           ++ [Print (pretty (graph_requests evs) +:+ " graphs can be found in '"
                      +:+ Path (outdir (st_args s)) +:+ "' directory")].
Proof.
  intros Hrun.
  set (s1 := log_more s [InitMatplotlib; Mkdir (Path (outdir (st_args s)))]).
  destruct (graph_environment (Path (outdir (st_args s))) s1) as [[n_env|reason|e] s2] eqn:Henv.
  2, 3: unfold render_traces, bind, emit, get_args in Hrun; simpl in Hrun;
        unfold s1, log_more in Henv; simpl in Henv;
        rewrite <- app_assoc in Hrun; simpl in Hrun; by rewrite Henv in Hrun.
  rewrite (render_traces_after_environment _ _ _ Henv) in Hrun.
  destruct (tallies_graph_environment _ _ _ _ Henv) as (evs1 & Hlog1 & Hn1).
  unfold bind in Hrun.
  destruct (compare_traces s2) as [[[]|?|?] s3] eqn:Hcmp; [|done..].
  destruct (appends_compare_traces (λ _, False) _ _ _ Hcmp) as (_ & evs2 & Hlog2 & Hnone).
  destruct evs2 as [|e evs2]; [|by apply Forall_cons in Hnone as [[] _]].
  rewrite app_nil_r in Hlog2.
  destruct (plot_graphs (Path (outdir (st_args s))) s3) as [[n_plot|?|?] s4] eqn:Hplot; [|done..].
  destruct (tallies_plot_graphs _ _ _ _ Hplot) as (evs3 & Hlog3 & Hn3).
  injection Hrun as <-. simpl.
  exists ([InitMatplotlib; Mkdir (Path (outdir (st_args s)))] ++ evs1 ++ evs3).
  rewrite Hlog3, Hlog2, Hlog1. unfold s1, log_more. simpl.
  rewrite <- !app_assoc. simpl. do 4 f_equal.
  change (InitMatplotlib :: Mkdir (Path (outdir (st_args s))) :: evs1 ++ evs3)
    with ([InitMatplotlib; Mkdir (Path (outdir (st_args s)))] ++ evs1 ++ evs3).
  rewrite !graph_requests_app, Hn1, Hn3. reflexivity.
Qed.

End tally.

Lemma render_traces_reports_requests_witness :
  ∃ evs, st_log (run (render_traces (R := unit_renderer)) (sample_args [sysA; sysD])).2
         = evs ++ [Print (pretty (graph_requests evs) +:+ " graphs can be found in '"
                          +:+ "out" +:+ "' directory")].
Proof.
  destruct (render_traces_reports_requests (R := unit_renderer) (Hunit := unit_renderer_unit)
              {| st_args := sample_args [sysA; sysD]; st_log := [] |}
              (run (render_traces (R := unit_renderer)) (sample_args [sysA; sysD])).2)
    as [evs Hevs].
  - by vm_compute.
  - exists evs. exact Hevs.
Defined.

Lemma stages_return_their_requests_witness :
  tallies 0 (graph_fans (R := unit_renderer) sysA "avx_1" "out")
  ∧ tallies 0 (graph_environment (R := unit_renderer) "out")
  ∧ tallies 0 (plot_graphs (R := unit_renderer) "out").
Proof.
  destruct (stages_return_their_requests (R := unit_renderer) (Hunit := unit_renderer_unit)
              sysA "avx_1" "out") as (Hfans & _ & _ & Henv & Hplot).
  by split_and!.
Defined.

(** * Disabled environment graphs, empty sets, foreign jobs *)

Section edges.
Context `{R : Renderer}.

Lemma bind_raised {A B} (m : M A) (k : A → M B) s e s' :
  m s = (Raised e, s') → bind m k s = (Raised e, s').
Proof. unfold bind. by intros ->. Qed.

Lemma sum_list_unit {A} (f : A → nat) (l : list A) :
  (∀ x, f x = 1) → sum_list (map f l) = length l.
Proof. intros Hf. induction l as [|x l IH]; simpl; [done|]. by rewrite Hf, IH. Qed.

(** X7: with [--no-env] ([no_env] false) a run on a Comparison Set that the
    validator accepts prints that the environment graphs are disabled,
    requests no environment graph and creates no per-trace directory, leaves
    [args] untouched (the shared enclosure is not even looked for), and
    still requests one scaling and one individual graph per job identity;
    with a renderer that accounts one graph per request the summary line
    reports twice the number of job identities. *)
Theorem render_traces_no_env {Hunit : UnitRenderer R} s reference rest :
  no_env (st_args s) = false →
  traces (st_args s) = reference :: rest →
  Forall (compatible_with reference) (traces (st_args s)) →
  NoDup (map get_name (traces (st_args s))) →
  render_traces s
  = (Done (),
     log_more s
       ([InitMatplotlib; Mkdir (Path (outdir (st_args s))); Print "environment: disabled by user"]
        ++ plot_requests (first_occurrences (bench_job_names reference))
                         (map get_name (traces (st_args s)))
        ++ [Print (pretty (2 * length (first_occurrences (bench_job_names reference)))
                   +:+ " graphs can be found in '" +:+ Path (outdir (st_args s))
                   +:+ "' directory")])).
Proof.
  intros Hoff Hargs Hcompat Hnodup.
  rewrite (render_traces_after_environment s 0
             (log_more s [InitMatplotlib; Mkdir (Path (outdir (st_args s)));
                          Print "environment: disabled by user"])).
  2: { rewrite graph_environment_disabled by done. by rewrite log_more_app. }
  erewrite bind_done by (by eapply validator_accepts_compatible).
  erewrite bind_done by (by eapply plot_graphs_spec).
  rewrite !sum_list_unit by (intros; apply scaling_graph_one || apply individual_graph_one).
  set (jobs := first_occurrences (bench_job_names reference)).
  replace (0 + 0 + (0 + length jobs + length jobs)) with (2 * length jobs) by lia.
  unfold print, emit. rewrite !log_more_app. unfold log_more. cbn [st_args st_log].
  by rewrite <- !app_assoc.
Qed.

(** X8: an empty trace list.  The validator has nothing to reject and
    returns; the job aggregation and the enabled environment stage raise
    [IndexError] on [args.traces[0]] before doing anything; so a run raises
    [IndexError] after it has created the output directory (and, with
    [--no-env], said that the environment graphs are disabled). *)
Theorem render_traces_empty_set s output_dir :
  traces (st_args s) = [] →
  compare_traces s = (Done (), s)
  ∧ plot_graphs output_dir s = (Raised IndexError, s)
  ∧ (no_env (st_args s) = true →
     graph_environment output_dir s = (Raised IndexError, s))
  ∧ render_traces s
    = (Raised IndexError,
       log_more s ([InitMatplotlib; Mkdir (Path (outdir (st_args s)))]
                   ++ if no_env (st_args s) then []
                      else [Print "environment: disabled by user"])).
Proof.
  intros Hempty.
  assert (∀ s0, traces (st_args s0) = [] → compare_traces s0 = (Done (), s0)) as Hcmp.
  { intros s0 H0. unfold compare_traces, get_args. unfold bind at 1. by rewrite H0. }
  assert (∀ d s0, traces (st_args s0) = [] → plot_graphs d s0 = (Raised IndexError, s0))
    as Hplot.
  { intros d s0 H0. unfold plot_graphs, get_args. unfold bind at 1. by rewrite H0. }
  assert (∀ d s0, traces (st_args s0) = [] → no_env (st_args s0) = true →
                  graph_environment d s0 = (Raised IndexError, s0)) as Henv.
  { intros d s0 H0 Hon. unfold graph_environment, get_args. unfold bind at 1.
    rewrite Hon. change (negb true) with false. cbv iota.
    apply bind_raised. unfold detect_same_enclosure, get_args. unfold bind at 1.
    by rewrite H0. }
  split_and!; [by apply Hcmp|by apply Hplot|by apply Henv|].
  destruct (no_env (st_args s)) eqn:Hon.
  - unfold render_traces. unfold bind at 1. unfold emit at 1.
    unfold get_args. unfold bind at 1. unfold bind at 1. unfold emit at 1.
    cbn [st_args st_log]. apply bind_raised.
    rewrite Henv by done. unfold log_more. by rewrite <- !app_assoc.
  - rewrite (render_traces_after_environment s 0
               (log_more s [InitMatplotlib; Mkdir (Path (outdir (st_args s)));
                            Print "environment: disabled by user"])).
    2: { rewrite graph_environment_disabled by done. by rewrite log_more_app. }
    erewrite bind_done by (by apply Hcmp). apply bind_raised. by apply Hplot.
Qed.

(** X9: the job identities come from the reference trace alone.  On a
    non-empty Comparison Set [plot_graphs] returns; every scaling or
    individual request it issues is for a job that some bench of the
    reference trace ran, and carries the logical names of all the traces; a
    job that only other traces ran is never requested.  There are at most as
    many identities as the reference has benches, and with a renderer that
    accounts one graph per request the count returned is twice their
    number. *)
Theorem plot_graphs_reference_only {Hunit : UnitRenderer R} output_dir reference rest s :
  traces (st_args s) = reference :: rest →
  ∃ evs,
    plot_graphs output_dir s
    = (Done (2 * length (first_occurrences (bench_job_names reference))),
       log_more s evs)
    ∧ length (first_occurrences (bench_job_names reference))
      ≤ length (bench_list reference)
    ∧ ∀ job names,
        ScalingGraph job names ∈ evs ∨ IndividualGraph job names ∈ evs →
        job ∈ bench_job_names reference
        ∧ names = map get_name (traces (st_args s)).
Proof.
  intros Hargs.
  exists (plot_requests (first_occurrences (bench_job_names reference))
                        (map get_name (traces (st_args s)))).
  split_and!.
  - rewrite (plot_graphs_spec _ _ _ _ Hargs).
    rewrite !sum_list_unit by (intros; apply scaling_graph_one || apply individual_graph_one).
    do 2 f_equal. lia.
  - etrans; [apply sublist_length, first_occurrences_sublist|].
    rewrite <- (Forall2_length _ _ _ (bench_job_names_resolved reference)).
    by rewrite sorted_Permutation.
  - intros job names Hin. unfold plot_requests in Hin.
    rewrite !elem_of_app, !elem_of_cons, !list_elem_of_In, !in_map_iff in Hin.
    assert (∃ job', (ScalingGraph job' (map get_name (traces (st_args s)))
                       = ScalingGraph job names
                     ∨ IndividualGraph job' (map get_name (traces (st_args s)))
                       = IndividualGraph job names)
                    ∧ In job' (first_occurrences (bench_job_names reference)))
      as (job' & Heq & Hjob).
    { destruct Hin as [Hin|Hin];
        repeat match goal with
               | H : _ ∨ _ |- _ => destruct H
               | H : ∃ _, _ |- _ => destruct H as (? & ? & ?)
               | H : In _ [] |- _ => destruct H
               | H : _ ∈ [] |- _ => by apply not_elem_of_nil in H
               end; try discriminate; eauto. }
    apply list_elem_of_In in Hjob. rewrite first_occurrences_elem_of in Hjob.
    destruct Heq as [[= <- <-]|[= <- <-]]; by split.
Qed.

End edges.

Lemma render_traces_no_env_witness :
  run (render_traces (R := unit_renderer))
      {| traces := [sysA; sysB]; no_env := false; same_enclosure := false; outdir := "out/" |}
  = (Done (),
     {| st_args := {| traces := [sysA; sysB]; no_env := false;
                      same_enclosure := false; outdir := "out/" |};
        st_log := [InitMatplotlib; Mkdir "out"; Print "environment: disabled by user";
                   Print "Scaling: rendering 1 jobs"; ScalingGraph "avx" ["sysA"; "sysB"];
                   Print "Individual: rendering 1 jobs";
                   IndividualGraph "avx" ["sysA"; "sysB"];
                   Print "2 graphs can be found in 'out' directory"] |}).
Proof.
  apply (render_traces_no_env (R := unit_renderer) (Hunit := unit_renderer_unit)
           {| st_args := {| traces := [sysA; sysB]; no_env := false;
                            same_enclosure := false; outdir := "out/" |};
              st_log := [] |} sysA [sysB] eq_refl eq_refl).
  - repeat (constructor; [by apply sysA_compatible|]). constructor.
  - compute_done.
Defined.

Lemma render_traces_empty_set_witness :
  run (render_traces (R := unit_renderer)) (sample_args [])
  = (Raised IndexError,
     {| st_args := sample_args []; st_log := [InitMatplotlib; Mkdir "out"] |}).
Proof.
  apply (render_traces_empty_set (R := unit_renderer)
           {| st_args := sample_args []; st_log := [] |} "out" eq_refl).
Defined.

Lemma plot_graphs_reference_only_witness :
  ∃ evs, run (plot_graphs (R := unit_renderer) "out") (sample_args [ramp; sysA])
         = (Done 6, {| st_args := sample_args [ramp; sysA]; st_log := evs |}).
Proof.
  destruct (plot_graphs_reference_only (R := unit_renderer) (Hunit := unit_renderer_unit)
              "out" ramp [sysA] {| st_args := sample_args [ramp; sysA]; st_log := [] |}
              eq_refl) as (evs & Hrun & _).
  exists evs. exact Hrun.
Defined.

(** * The trace argument *)

Example valid_trace_file_windows_path :
  valid_trace_file (λ f l p, (f, l, p)) "C:\results.json:sysA:watts"
  = Accepted ("C:\results.json", "sysA", "watts").
Proof. reflexivity. Qed.

Lemma append_nil_l s : "" +:+ s = s.
Proof. reflexivity. Qed.

Lemma append_cons c s1 s2 : String c s1 +:+ s2 = String c (s1 +:+ s2).
Proof. reflexivity. Qed.

Lemma count_char_app c s1 s2 :
  count_char c (s1 +:+ s2) = count_char c s1 + count_char c s2.
Proof. induction s1 as [|c' s1 IH]; simpl; [done|]. rewrite IH. lia. Qed.

Lemma first_line_app_newline a b :
  count_char newline a = 0 → first_line (a +:+ String newline b) = a.
Proof.
  induction a as [|c a IH]; simpl.
  - done.
  - case_bool_decide; [done|]. intros Ha. by rewrite IH.
Qed.

Lemma first_line_no_newline a : count_char newline a = 0 → first_line a = a.
Proof.
  induction a as [|c a IH]; simpl; [done|].
  case_bool_decide; [done|]. intros Ha. by rewrite IH.
Qed.

(** The split of a string at its last colon is unique. *)
Lemma split_last_colon_unique a b a' b' :
  a +:+ ":" +:+ b = a' +:+ ":" +:+ b' →
  count_char ":" b = 0 → count_char ":" b' = 0 →
  a = a' ∧ b = b'.
Proof.
  revert a'. induction a as [|c a IH]; intros [|c' a'] Heq Hb Hb';
    repeat (rewrite append_nil_l in Heq || rewrite append_cons in Heq).
  - by injection Heq as ->.
  - injection Heq as <- ->. rewrite count_char_app in Hb. simpl in Hb. lia.
  - injection Heq as -> <-. rewrite count_char_app in Hb'. simpl in Hb'. lia.
  - injection Heq as -> Heq. destruct (IH a' Heq Hb Hb') as [-> ->]. done.
Qed.

(** One step of a group, with the recursive call folded back. *)
Lemma match_at_group p s :
  match_at (AnyGroup :: p) s
  = let stop_here := match match_at p s with
                     | Some captures => Some ("" :: captures)
                     | None => None
                     end in
    match s with
    | String c s' =>
      if bool_decide (c = newline) then stop_here
      else match match_at (AnyGroup :: p) s' with
           | Some (capture :: captures) => Some (String c capture :: captures)
           | _ => stop_here
           end
    | EmptyString => stop_here
    end.
Proof. by destruct s. Qed.

(** A single group takes the rest of the line. *)
Lemma match_at_last_group s : match_at [AnyGroup] s = Some [first_line s].
Proof.
  induction s as [|c s IH]; [done|].
  rewrite match_at_group, IH. simpl. by case_bool_decide.
Qed.

(** Two groups around a colon split the line at its last colon. *)
Lemma match_at_two_groups s :
  match match_at [AnyGroup; Literal ":"%char; AnyGroup] s with
  | Some captures =>
    ∃ a b, captures = [a; b] ∧ first_line s = a +:+ ":" +:+ b
           ∧ count_char ":" b = 0
  | None => count_char ":" (first_line s) = 0
  end.
Proof.
  induction s as [|c s IH]; [done|].
  rewrite match_at_group. cbv zeta.
  change (match_at (Literal ":"%char :: [AnyGroup]) (String c s))
    with (if bool_decide (c = ":"%char) then match_at [AnyGroup] s else None).
  rewrite match_at_last_group. simpl first_line.
  destruct (bool_decide (c = newline)) eqn:Hnl.
  { apply bool_decide_eq_true_1 in Hnl as ->. done. }
  destruct (match_at [AnyGroup; Literal ":"%char; AnyGroup] s) as [captures|].
  - destruct IH as (a & b & -> & Hline & Hb). cbv beta iota.
    exists (String c a), b. split_and!; [done| |done]. by rewrite Hline.
  - simpl count_char. destruct (decide (c = ":"%char)) as [->|Hc].
    + exists "", (first_line s). by split_and!.
    + rewrite !bool_decide_eq_false_2 by done. by rewrite IH.
Qed.

(** The pattern of [valid_trace_file] at the start of a string: it matches
    when the first line has two colons, and splits that line at its last
    two colons. *)
Lemma match_at_trace_arg s :
  match match_at trace_arg_pattern s with
  | Some captures =>
    ∃ f l p, captures = [f; l; p]
             ∧ first_line s = f +:+ ":" +:+ l +:+ ":" +:+ p
             ∧ count_char ":" l = 0 ∧ count_char ":" p = 0
  | None => count_char ":" (first_line s) < 2
  end.
Proof.
  unfold trace_arg_pattern. induction s as [|c s IH]; [simpl; lia|].
  rewrite match_at_group. cbv zeta.
  change (match_at (Literal ":"%char :: [AnyGroup; Literal ":"%char; AnyGroup])
                   (String c s))
    with (if bool_decide (c = ":"%char)
          then match_at [AnyGroup; Literal ":"%char; AnyGroup] s else None).
  simpl first_line.
  destruct (bool_decide (c = newline)) eqn:Hnl.
  { apply bool_decide_eq_true_1 in Hnl as ->. simpl. lia. }
  destruct (match_at [AnyGroup; Literal ":"%char; AnyGroup; Literal ":"%char; AnyGroup] s)
    as [captures|].
  - destruct IH as (f & l & p & -> & Hline & Hl & Hp). cbv beta iota.
    exists (String c f), l, p. split_and!; [done| |done..]. by rewrite Hline.
  - pose proof (match_at_two_groups s) as Htwo.
    simpl count_char. destruct (decide (c = ":"%char)) as [->|Hc].
    + rewrite !bool_decide_eq_true_2 by done.
      destruct (match_at [AnyGroup; Literal ":"%char; AnyGroup] s) as [captures|].
      * destruct Htwo as (l & p & -> & Hline & Hp).
        exists "", l, p. split_and!; [done| | |done].
        -- by rewrite Hline.
        -- rewrite Hline, count_char_app in IH. simpl in IH. lia.
      * lia.
    + rewrite !bool_decide_eq_false_2 by done. lia.
Qed.

Lemma append_assoc s1 s2 s3 : (s1 +:+ s2) +:+ s3 = s1 +:+ s2 +:+ s3.
Proof. induction s1 as [|c s1 IH]; [done|]. by rewrite !append_cons, IH. Qed.

(** The split of a string at its last two colons is unique. *)
Lemma split_last_two_colons_unique f l p f' l' p' :
  f +:+ ":" +:+ l +:+ ":" +:+ p = f' +:+ ":" +:+ l' +:+ ":" +:+ p' →
  count_char ":" l = 0 → count_char ":" p = 0 →
  count_char ":" l' = 0 → count_char ":" p' = 0 →
  f = f' ∧ l = l' ∧ p = p'.
Proof.
  intros Heq Hl Hp Hl' Hp'.
  rewrite <- (append_assoc ":" l), <- (append_assoc f) in Heq.
  rewrite <- (append_assoc ":" l'), <- (append_assoc f') in Heq.
  destruct (split_last_colon_unique _ _ _ _ Heq Hp Hp') as [Hfl ->].
  by destruct (split_last_colon_unique _ _ _ _ Hfl Hl Hl') as [-> ->].
Qed.

Lemma re_search_unfold p s :
  re_search p s
  = match match_at p s with
    | Some captures => Some captures
    | None => match s with
              | String _ s' => re_search p s'
              | EmptyString => None
              end
    end.
Proof. by destruct s. Qed.

(** A first line with two colons is where the search stops. *)
Lemma re_search_first_line s f l p :
  first_line s = f +:+ ":" +:+ l +:+ ":" +:+ p →
  count_char ":" l = 0 → count_char ":" p = 0 →
  re_search trace_arg_pattern s = Some [f; l; p].
Proof.
  intros Hline Hl Hp. rewrite re_search_unfold.
  pose proof (match_at_trace_arg s) as Hmatch.
  destruct (match_at trace_arg_pattern s) as [captures|].
  - destruct Hmatch as (f' & l' & p' & -> & Hline' & Hl' & Hp').
    rewrite Hline in Hline'.
    by destruct (split_last_two_colons_unique _ _ _ _ _ _ Hline' Hl Hp Hl' Hp')
      as (-> & -> & ->).
  - rewrite Hline, !count_char_app in Hmatch. simpl in Hmatch. lia.
Qed.

Lemma match_at_too_few_colons s :
  count_char ":" (first_line s) < 2 → match_at trace_arg_pattern s = None.
Proof.
  intros Hcolons. pose proof (match_at_trace_arg s) as Hmatch.
  destruct (match_at trace_arg_pattern s) as [captures|]; [|done].
  destruct Hmatch as (f & l & p & _ & Hline & _).
  rewrite Hline, !count_char_app in Hcolons. simpl in Hcolons. lia.
Qed.

(** A string of one line with fewer than two colons matches nowhere. *)
Lemma re_search_too_few_colons s :
  count_char newline s = 0 → count_char ":" s < 2 →
  re_search trace_arg_pattern s = None.
Proof.
  induction s as [|c s IH]; intros Hnl Hcolons; rewrite re_search_unfold.
  - by rewrite match_at_too_few_colons by (simpl; lia).
  - rewrite match_at_too_few_colons by (by rewrite first_line_no_newline).
    simpl in Hnl, Hcolons. apply IH; [|lia].
    destruct (bool_decide (c = newline)); simpl in Hnl; lia.
Qed.

(** A line with fewer than two colons before a newline is passed over. *)
Lemma re_search_skips_line junk s :
  count_char newline junk = 0 → count_char ":" junk < 2 →
  re_search trace_arg_pattern (junk +:+ String newline s)
  = re_search trace_arg_pattern s.
Proof.
  induction junk as [|c junk IH]; intros Hnl Hcolons; rewrite re_search_unfold.
  - by rewrite match_at_too_few_colons by (simpl; lia).
  - rewrite match_at_too_few_colons by (by rewrite first_line_app_newline).
    rewrite append_cons. simpl in Hnl, Hcolons. apply IH; [|lia].
    destruct (bool_decide (c = newline)); simpl in Hnl; lia.
Qed.

(** X10: on an argument of a single line, [valid_trace_file] raises the
    [ArgumentTypeError] quoting the argument exactly when the argument has
    fewer than two colons; otherwise it builds the trace from the three
    fields obtained by cutting the argument at its last two colons: the
    logical name and the power metric hold no colon, and every earlier colon
    stays in the file name. *)
Theorem valid_trace_file_syntax {T} (new_trace : string → string → string → T) trace_arg :
  count_char newline trace_arg = 0 →
  (count_char ":" trace_arg < 2 →
   valid_trace_file new_trace trace_arg
   = ArgumentTypeError
       (trace_arg +:+ " does not match 'filename:logical_name:power_metric' syntax"))
  ∧ (2 ≤ count_char ":" trace_arg →
     ∃ filename logical_name power_metric,
       trace_arg = filename +:+ ":" +:+ logical_name +:+ ":" +:+ power_metric
       ∧ count_char ":" logical_name = 0 ∧ count_char ":" power_metric = 0
       ∧ valid_trace_file new_trace trace_arg
         = Accepted (new_trace filename logical_name power_metric)).
Proof.
  intros Hnl. split.
  - intros Hcolons. unfold valid_trace_file.
    by rewrite re_search_too_few_colons.
  - intros Hcolons. pose proof (match_at_trace_arg trace_arg) as Hmatch.
    rewrite first_line_no_newline in Hmatch by done.
    destruct (match_at trace_arg_pattern trace_arg) as [captures|] eqn:Hm; [|lia].
    destruct Hmatch as (f & l & p & -> & Harg & Hl & Hp).
    exists f, l, p. split_and!; [done..|].
    unfold valid_trace_file. by rewrite re_search_unfold, Hm.
Qed.

Lemma valid_trace_file_syntax_witness :
  valid_trace_file (λ f l p, (f, l, p)) "results.json:sysA"
  = ArgumentTypeError
      "results.json:sysA does not match 'filename:logical_name:power_metric' syntax".
Proof.
  apply (proj1 (valid_trace_file_syntax (λ f l p, (f, l, p)) "results.json:sysA" eq_refl)).
  simpl. lia.
Defined.

(** X11: round trip.  For a file name, a logical name and a power metric
    without newline, of which the last two hold no colon, the argument
    [filename:logical_name:power_metric] is accepted and the trace is built
    from exactly these three fields, also when the file name has colons. *)
Theorem valid_trace_file_round_trip {T} (new_trace : string → string → string → T)
    filename logical_name power_metric :
  count_char newline filename = 0 →
  count_char newline logical_name = 0 →
  count_char newline power_metric = 0 →
  count_char ":" logical_name = 0 →
  count_char ":" power_metric = 0 →
  valid_trace_file new_trace
    (filename +:+ ":" +:+ logical_name +:+ ":" +:+ power_metric)
  = Accepted (new_trace filename logical_name power_metric).
Proof.
  intros Hf Hl Hp Hcl Hcp. unfold valid_trace_file.
  rewrite (re_search_first_line _ filename logical_name power_metric); [done| |done..].
  apply first_line_no_newline. rewrite !count_char_app. simpl. lia.
Qed.

Lemma valid_trace_file_round_trip_witness :
  valid_trace_file (λ f l p, (f, l, p)) "http://host:80/a.json:sysA:watts"
  = Accepted ("http://host:80/a.json", "sysA", "watts").
Proof.
  apply (valid_trace_file_round_trip (λ f l p, (f, l, p))
           "http://host:80/a.json" "sysA" "watts"); reflexivity.
Defined.

Lemma append_nil_r s : s +:+ "" = s.
Proof. induction s as [|c s IH]; [done|]. by rewrite append_cons, IH. Qed.

(** Any number of lines with fewer than two colons are passed over. *)
Lemma re_search_skips_lines skipped s :
  Forall (λ line, count_char newline line = 0 ∧ count_char ":" line < 2) skipped →
  re_search trace_arg_pattern (unlines skipped +:+ s) = re_search trace_arg_pattern s.
Proof.
  induction 1 as [|line skipped [Hnl Hcolons] _ IH]; [done|].
  simpl unlines. rewrite append_assoc, append_cons.
  by rewrite re_search_skips_line.
Qed.

(** X12: the pattern is searched, not anchored.  Whatever the argument, the
    fields are taken from its first line that has two colons: the lines
    before it, each with fewer than two colons and however many, are passed
    over, and what follows that line, if anything, is dropped, without any
    error.  An argument none of whose lines has two colons is rejected with
    the [ArgumentTypeError] quoting it. *)
Theorem valid_trace_file_unanchored {T} (new_trace : string → string → string → T)
    (skipped : list string) :
  Forall (λ line, count_char newline line = 0 ∧ count_char ":" line < 2) skipped →
  (∀ filename logical_name power_metric (rest : option string),
     count_char newline filename = 0 →
     count_char newline logical_name = 0 →
     count_char newline power_metric = 0 →
     count_char ":" logical_name = 0 →
     count_char ":" power_metric = 0 →
     valid_trace_file new_trace
       (unlines skipped
        +:+ (filename +:+ ":" +:+ logical_name +:+ ":" +:+ power_metric)
        +:+ match rest with
            | Some after => String newline after
            | None => ""
            end)
     = Accepted (new_trace filename logical_name power_metric))
  ∧ (∀ last,
       count_char newline last = 0 → count_char ":" last < 2 →
       valid_trace_file new_trace (unlines skipped +:+ last)
       = ArgumentTypeError
           ((unlines skipped +:+ last)
            +:+ " does not match 'filename:logical_name:power_metric' syntax")).
Proof.
  intros Hskipped. split.
  - intros f l p rest Hf Hl Hp Hcl Hcp. unfold valid_trace_file.
    rewrite re_search_skips_lines by done.
    rewrite (re_search_first_line _ f l p); [done| |done..].
    assert (count_char newline (f +:+ ":" +:+ l +:+ ":" +:+ p) = 0) as Hline.
    { rewrite !count_char_app. simpl. lia. }
    destruct rest as [after|].
    + by apply first_line_app_newline.
    + rewrite append_nil_r. by apply first_line_no_newline.
  - intros last Hnl Hcolons. unfold valid_trace_file.
    rewrite re_search_skips_lines by done.
    by rewrite re_search_too_few_colons.
Qed.

Lemma valid_trace_file_unanchored_witness :
  valid_trace_file (λ f l p, (f, l, p))
    ("note: x" +:+ String newline ("second line" +:+ String newline "a.json:sysA:watts"))
  = Accepted ("a.json", "sysA", "watts")
  ∧ valid_trace_file (λ f l p, (f, l, p))
      ("note: x" +:+ String newline
         ("a.json:sysA:watts" +:+ String newline "b.json:sysB:amps"))
    = Accepted ("a.json", "sysA", "watts").
Proof.
  split.
  - apply (proj1 (valid_trace_file_unanchored (λ f l p, (f, l, p))
                    ["note: x"; "second line"] ltac:(repeat constructor; simpl; lia))
             "a.json" "sysA" "watts" None); reflexivity.
  - apply (proj1 (valid_trace_file_unanchored (λ f l p, (f, l, p))
                    ["note: x"] ltac:(repeat constructor; simpl; lia))
             "a.json" "sysA" "watts" (Some "b.json:sysB:amps")); reflexivity.
Defined.

(** * hwbench: the output directory *)

Lemma append_neq_self s t : t ≠ "" → s +:+ t ≠ s.
Proof.
  intros Ht. induction s as [|c s IH]; [done|].
  rewrite append_cons. by intros [= Heq].
Qed.

(** X13: the output directory is named after the second in which hwbench
    starts and is created without [exist_ok].  When nothing of that name
    exists, the directory and its [tuning] sub-directory are created, every
    other path is left as it was, and both paths are returned; a second call
    within the same second then raises [FileExistsError] on the directory.
    When the name is already taken, by a directory or a file, the call
    raises [FileExistsError]. *)
Theorem create_output_directory_same_second stamp fs :
  let out_dir := "hwbench-out-" +:+ stamp in
  let tuning_out_dir := out_dir +:+ "/tuning" in
  (is_Some (fs !! out_dir) →
   create_output_directory stamp fs = inl (FileExistsError out_dir))
  ∧ (fs !! out_dir = None → fs !! tuning_out_dir = None →
     ∃ fs',
       create_output_directory stamp fs = inr (out_dir, tuning_out_dir, fs')
       ∧ fs' !! out_dir = Some Directory
       ∧ fs' !! tuning_out_dir = Some Directory
       ∧ (∀ path, path ≠ out_dir → path ≠ tuning_out_dir → fs' !! path = fs !! path)
       ∧ create_output_directory stamp fs' = inl (FileExistsError out_dir)).
Proof.
  intros out_dir tuning_out_dir.
  assert (tuning_out_dir ≠ out_dir) as Hne by (by apply append_neq_self).
  split.
  - intros [e He]. unfold create_output_directory, path_mkdir.
    fold out_dir. by rewrite He.
  - intros Hout Htuning.
    exists (<[tuning_out_dir := Directory]> (<[out_dir := Directory]> fs)).
    split_and!.
    + unfold create_output_directory, path_mkdir. fold out_dir. rewrite Hout.
      fold tuning_out_dir. rewrite lookup_insert_ne by done.
      by rewrite Htuning, lookup_insert_eq.
    + rewrite lookup_insert_ne by done. by rewrite lookup_insert_eq.
    + by rewrite lookup_insert_eq.
    + intros path Hp1 Hp2. by rewrite !lookup_insert_ne.
    + unfold create_output_directory, path_mkdir. fold out_dir.
      rewrite lookup_insert_ne by done. by rewrite lookup_insert_eq.
Qed.

Lemma create_output_directory_same_second_witness :
  ∃ fs', create_output_directory "20240131120000" ∅
         = inr ("hwbench-out-20240131120000", "hwbench-out-20240131120000/tuning", fs')
         ∧ create_output_directory "20240131120000" fs'
           = inl (FileExistsError "hwbench-out-20240131120000").
Proof.
  destruct (proj2 (create_output_directory_same_second "20240131120000" ∅)
              (lookup_empty _) (lookup_empty _))
    as (fs' & Hfirst & _ & _ & _ & Hsecond).
  exists fs'. by split.
Defined.
